(** * modAL acquisition functions (src/modAL/acquisition.py)

    A shallow embedding of the acquisition layer of modAL's Bayesian
    optimisation: the three scoring formulas [PI], [EI], [UCB], the adapters
    [optimizer_PI], [optimizer_EI], [optimizer_UCB] that bind them to a
    surrogate, and the query strategies [max_PI], [max_EI], [max_UCB].

    Numbers.  The program computes on IEEE double precision arrays; the
    embedding computes on the real numbers [R], the idealisation under which
    the specification's formulas (the normal distribution function, the
    intervals [0,1] and [0,oo)) are stated.  Division is total, as it is in
    the program, where dividing by zero raises nothing; the value of a
    quotient by zero (inf or NaN in the program) is not modelled.

    Arrays.  A numpy array is a shape and a row-major buffer; arithmetic
    between arrays follows numpy's broadcasting rule and raises [ValueError]
    when the shapes are incompatible.

    Calls.  Python's default arguments (tradeoff=0, beta=1, n_instances=1)
    are passed explicitly.  What the program imports is a parameter of its
    embedding: scipy's [ndtr] and [norm.pdf], and modAL's [multi_argmax]. *)

From Stdlib Require Import Reals Lra Lia List Arith PeanoNat Permutation Sorted.
Import ListNotations.
Open Scope R_scope.

(** ** Exceptions and the error monad *)

Inductive exn : Type :=
| ValueError              (* numpy: operands could not be broadcast together *)
| IndexError              (* numpy: index out of bounds *)
| PreconditionViolation   (* the Selector's refusal of too large a request *)
| UpstreamFailure.        (* the surrogate cannot predict *)

Inductive result (A : Type) : Type :=
| Ok (a : A)
| Raise (e : exn).

Arguments Ok {A} a.
Arguments Raise {A} e.

Definition bind {A B : Type} (c : result A) (k : A -> result B) : result B :=
  match c with
  | Ok a => k a
  | Raise e => Raise e
  end.

Notation "x <- c ;; k" := (bind c (fun x => k))
  (at level 61, c at next level, right associativity).
Notation "' p <- c ;; k" := (bind c (fun x => let p := x in k))
  (at level 61, p pattern, c at next level, right associativity).

(** ** numpy arrays *)

Record ndarray : Type := mk_array { shape : list nat; data : list R }.

(** Number of elements of an array of shape [s]. *)
Definition size_of (s : list nat) : nat := fold_right Nat.mul 1%nat s.

(** The buffer holds exactly the elements the shape announces. *)
Definition wf (a : ndarray) : Prop := length (data a) = size_of (shape a).

(** A Python float or a 0-d array. *)
Definition scalar (x : R) : ndarray := mk_array [] [x].

(** A 1-d array, shape (n,). *)
Definition vector (l : list R) : ndarray := mk_array [length l] l.

(** A column, shape (n, 1). *)
Definition column (l : list R) : ndarray := mk_array [length l; 1%nat] l.

(** All multi-indices of a shape, in row-major order. *)
Fixpoint indices (s : list nat) : list (list nat) :=
  match s with
  | [] => [[]]
  | d :: s' => flat_map (fun i => map (cons i) (indices s')) (seq 0 d)
  end.

(** A dimension of extent 1 is stretched: every index reads its element 0. *)
Definition clip (d i : nat) : nat := if (d =? 1)%nat then 0%nat else i.

(** Row-major offset of a multi-index (Horner's rule). *)
Fixpoint ravel (s idx : list nat) (acc : nat) : nat :=
  match s, idx with
  | d :: s', i :: idx' => ravel s' idx' (acc * d + clip d i)
  | _, _ => acc
  end.

(** Shapes are aligned on the right: missing leading dimensions count as 1. *)
Definition lpad (n : nat) (s : list nat) : list nat :=
  repeat 1%nat (n - length s) ++ s.

(** The element of [a] that a multi-index of the broadcast result reads. *)
Definition bget (a : ndarray) (idx : list nat) : R :=
  nth (ravel (lpad (length idx) (shape a)) idx 0) (data a) 0.

Definition bc_dim (d1 d2 : nat) : option nat :=
  if (d1 =? d2)%nat then Some d1
  else if (d1 =? 1)%nat then Some d2
  else if (d2 =? 1)%nat then Some d1
  else None.

Fixpoint bc_zip (s1 s2 : list nat) : option (list nat) :=
  match s1, s2 with
  | [], [] => Some []
  | d1 :: t1, d2 :: t2 =>
      match bc_dim d1 d2, bc_zip t1 t2 with
      | Some d, Some t => Some (d :: t)
      | _, _ => None
      end
  | _, _ => None
  end.

(** numpy's broadcasting rule on two shapes. *)
Definition broadcast_shapes (s1 s2 : list nat) : option (list nat) :=
  let n := Nat.max (length s1) (length s2) in
  bc_zip (lpad n s1) (lpad n s2).

(** A binary arithmetic operator between two arrays. *)
Definition broadcast2 (f : R -> R -> R) (a b : ndarray) : result ndarray :=
  match broadcast_shapes (shape a) (shape b) with
  | Some s =>
      Ok (mk_array s (map (fun idx => f (bget a idx) (bget b idx)) (indices s)))
  | None => Raise ValueError
  end.

Definition np_add : ndarray -> ndarray -> result ndarray := broadcast2 Rplus.
Definition np_sub : ndarray -> ndarray -> result ndarray := broadcast2 Rminus.
Definition np_mul : ndarray -> ndarray -> result ndarray := broadcast2 Rmult.
Definition np_div : ndarray -> ndarray -> result ndarray := broadcast2 Rdiv.

(** An elementwise function of one array (scipy's ndtr, norm.pdf). *)
Definition ufunc (f : R -> R) (a : ndarray) : ndarray :=
  mk_array (shape a) (map f (data a)).

(** [a.reshape(-1, 1)] *)
Definition reshape_col (a : ndarray) : ndarray :=
  mk_array [size_of (shape a); 1%nat] (data a).

(** Row [i] of an array along its first axis. *)
Definition row_len (a : ndarray) : nat := size_of (tl (shape a)).

Definition row (a : ndarray) (i : nat) : list R :=
  firstn (row_len a) (skipn (i * row_len a) (data a)).

(** [a[idx]] for a sequence of row numbers. *)
Definition take (a : ndarray) (idx : list nat) : result ndarray :=
  match shape a with
  | [] => Raise IndexError
  | n :: s' =>
      if forallb (fun i => (i <? n)%nat) idx
      then Ok (mk_array (length idx :: s') (flat_map (row a) idx))
      else Raise IndexError
  end.

(** ** The surrogate model

    The program reads two things of the optimizer: [predict(X,
    return_std=True)], a pair of arrays (mean, std), and the attribute
    [y_max]. *)

Record BayesianEstimator : Type := {
  predict : ndarray -> result (ndarray * ndarray);
  y_max : R
}.

(** ** The program *)

Section Acquisition.

(** scipy.special.ndtr and scipy.stats.norm.pdf *)
Variable ndtr : R -> R.
Variable norm_pdf : R -> R.

(** modAL.utils.selection.multi_argmax, which acquisition.py imports *)
Variable multi_argmax : ndarray -> nat -> result (list nat).

Definition PI (mean std : ndarray) (max_val tradeoff : R) : result ndarray :=
  m <- np_sub mean (scalar max_val);;
  m <- np_sub m (scalar tradeoff);;
  z <- np_div m std;;
  Ok (ufunc ndtr z).

Definition EI (mean std : ndarray) (max_val tradeoff : R) : result ndarray :=
  m <- np_sub mean (scalar max_val);;
  m <- np_sub m (scalar tradeoff);;
  z <- np_div m std;;
  m' <- np_sub mean (scalar max_val);;
  m' <- np_sub m' (scalar tradeoff);;
  l <- np_mul m' (ufunc ndtr z);;
  r <- np_mul std (ufunc norm_pdf z);;
  np_add l r.

Definition UCB (mean std : ndarray) (beta : R) : result ndarray :=
  r <- np_mul (scalar beta) std;;
  np_add mean r.

(** Acquisition functions (the adapters). *)

Definition optimizer_PI (optimizer : BayesianEstimator) (X : ndarray)
    (tradeoff : R) : result ndarray :=
  ' (mean, std) <- predict optimizer X;;
  let std := reshape_col std in
  PI mean std (y_max optimizer) tradeoff.

Definition optimizer_EI (optimizer : BayesianEstimator) (X : ndarray)
    (tradeoff : R) : result ndarray :=
  ' (mean, std) <- predict optimizer X;;
  let std := reshape_col std in
  EI mean std (y_max optimizer) tradeoff.

Definition optimizer_UCB (optimizer : BayesianEstimator) (X : ndarray)
    (beta : R) : result ndarray :=
  ' (mean, std) <- predict optimizer X;;
  let std := reshape_col std in
  UCB mean std beta.

(** Query strategies. *)

Definition max_PI (optimizer : BayesianEstimator) (X : ndarray)
    (tradeoff : R) (n_instances : nat) : result (list nat * ndarray) :=
  pi <- optimizer_PI optimizer X tradeoff;;
  query_idx <- multi_argmax pi n_instances;;
  rows <- take X query_idx;;
  Ok (query_idx, rows).

Definition max_EI (optimizer : BayesianEstimator) (X : ndarray)
    (tradeoff : R) (n_instances : nat) : result (list nat * ndarray) :=
  ei <- optimizer_EI optimizer X tradeoff;;
  query_idx <- multi_argmax ei n_instances;;
  rows <- take X query_idx;;
  Ok (query_idx, rows).

Definition max_UCB (optimizer : BayesianEstimator) (X : ndarray)
    (beta : R) (n_instances : nat) : result (list nat * ndarray) :=
  ucb <- optimizer_UCB optimizer X beta;;
  query_idx <- multi_argmax ucb n_instances;;
  rows <- take X query_idx;;
  Ok (query_idx, rows).

End Acquisition.

(** ** The top-k Selector *)

(** Modelled from the spec: the ordering of the top-k Selector (descending
    score, ties by lowest index first), absent from src/.  Insertion into a
    list of (index, score) pairs kept in descending score order; the inserted
    pair goes before the first pair that does not beat it. *)
Fixpoint insert_desc (p : nat * R) (l : list (nat * R)) : list (nat * R) :=
  match l with
  | [] => [p]
  | q :: l' =>
      if Rle_dec (snd q) (snd p) then p :: l else q :: insert_desc p l'
  end.

(** Modelled from the spec: the ranking of the top-k Selector, absent from
    src/.  Indices of a score sequence by descending score, equal scores by
    ascending index. *)
Definition argsort_desc (v : list R) : list nat :=
  map fst (fold_right insert_desc [] (combine (seq 0 (length v)) v)).

(** Modelled from the spec: the top-k Selector, modAL.utils.selection.multi_argmax,
    whose source is not part of src/.  Given the scores and a count
    [n_instances] it returns the indices of the [n_instances] highest-scoring
    entries, in descending score order, ties by lowest index first; a count
    exceeding the number of entries is a precondition violation. *)
Definition top_k_selector (values : ndarray) (n_instances : nat)
    : result (list nat) :=
  if (n_instances <=? length (data values))%nat
  then Ok (firstn n_instances (argsort_desc (data values)))
  else Raise PreconditionViolation.

(** ** The strategies as one pipeline, and what they return *)

(** The three strategies are one pipeline behind their adapter. *)
Definition select (sel : ndarray -> nat -> result (list nat)) (X : ndarray)
    (n_instances : nat) (scores : result ndarray)
    : result (list nat * ndarray) :=
  s <- scores;;
  query_idx <- sel s n_instances;;
  rows <- take X query_idx;;
  Ok (query_idx, rows).

(** What a successful strategy call returns: the Selector's index sequence
    for the adapter's scores, and the rows of X at these indices, in the
    Selector's order. *)
Definition selected_rows (sel : ndarray -> nat -> result (list nat))
    (X : ndarray) (n_instances : nat) (scores : result ndarray)
    (out : result (list nat * ndarray)) : Prop :=
  forall query_idx rows,
    out = Ok (query_idx, rows) ->
    (exists s, scores = Ok s /\ sel s n_instances = Ok query_idx)
    /\ take X query_idx = Ok rows
    /\ shape rows = length query_idx :: tl (shape X)
    /\ forall j, (j < length query_idx)%nat ->
         (nth j query_idx 0 < hd 0 (shape X))%nat
         /\ row rows j = row X (nth j query_idx 0%nat).

(** ** Vocabulary of the proofs *)

(** Elementwise combination of two buffers. *)
Definition zip_with (f : R -> R -> R) (l1 l2 : list R) : list R :=
  map (fun p => f (fst p) (snd p)) (combine l1 l2).

(** The head of the sorted list is the running best from the right, ties
    going to the lower index. *)
Definition better (p : nat * R) (acc : option (nat * R)) : option (nat * R) :=
  match acc with
  | None => Some p
  | Some q => if Rle_dec (snd q) (snd p) then Some p else Some q
  end.

(** The expected improvement of a standardised margin [z] at unit
    uncertainty: [z * Phi z + phi z]. *)
Definition unit_improvement (ndtr norm_pdf : R -> R) (z : R) : R :=
  z * ndtr z + norm_pdf z.

(** The n-by-n array whose entry in row i and column j is [Z i j]. *)
Definition matrix_of (n : nat) (Z : nat -> nat -> R) : ndarray :=
  mk_array [n; n]
    (flat_map (fun i => map (fun j => Z i j) (seq 0 n)) (seq 0 n)).

(** The causes of a failed selection behind an adapter. *)
Definition failure_cause (sel : ndarray -> nat -> result (list nat))
    (optimizer : BayesianEstimator) (X : ndarray) (n_instances : nat)
    (scores : result ndarray) (e : exn) : Prop :=
  predict optimizer X = Raise e
  \/ (e = ValueError /\ scores = Raise ValueError)
  \/ (exists s, scores = Ok s /\ sel s n_instances = Raise e)
  \/ (e = IndexError
      /\ exists s query_idx,
           scores = Ok s /\ sel s n_instances = Ok query_idx
           /\ take X query_idx = Raise IndexError).

(** ** The standard normal distribution

    scipy's [ndtr] and [norm.pdf] are the distribution function and the
    density of the standard normal law.  The program is parametric in them;
    the theorems about their values assume the contract [standard_normal]:
    the density is the Gaussian bell up to its normalising constant, the
    distribution function is a primitive of the density, and it tends to 0
    at minus infinity and to 1 at plus infinity (which fixes the constant).
    An instance is built further down from the integral of the bell. *)

Definition gauss (t : R) : R := exp (- (t * t) / 2).

(** The contract of the standard normal pair. *)
Record standard_normal (ndtr norm_pdf : R -> R) : Prop := {
  pdf_shape : forall z, norm_pdf z = norm_pdf 0 * exp (- (z * z) / 2);
  cdf_deriv : forall z, derivable_pt_lim ndtr z (norm_pdf z);
  cdf_at_minus_infinity :
    forall eps, 0 < eps -> exists M, forall x, x < M -> Rabs (ndtr x) < eps;
  cdf_at_plus_infinity :
    forall eps, 0 < eps -> exists M, forall x, M < x -> Rabs (ndtr x - 1) < eps
}.

(** ** Inputs of the examples *)

(** A surrogate whose [predict] returns two flat sequences of length 2,
    as scikit-learn's Gaussian process does for one-dimensional targets. *)
Definition flat_surrogate : BayesianEstimator :=
  {| predict := fun _ => Ok (vector [1; 2], vector [1; 1]); y_max := 0 |}.

(** A batch of two candidates with one feature each. *)
Definition two_candidates : ndarray := mk_array [2%nat; 1%nat] [10; 20].

(** A surrogate that answers three means, as a column, and two uncertainties. *)
Definition short_std_surrogate : BayesianEstimator :=
  {| predict := fun _ => Ok (column [1; 2; / 2], vector [/ 10; / 10]);
     y_max := 3 / 2 |}.

Definition three_candidates : ndarray :=
  mk_array [3%nat; 1%nat] [10; 20; 30].

(** A surrogate that answers three means, as a column, and one uncertainty. *)
Definition single_std_surrogate : BayesianEstimator :=
  {| predict := fun _ => Ok (column [1; 2; / 2], vector [/ 10]);
     y_max := 3 / 2 |}.

(** A surrogate that cannot predict (it was never fitted). *)
Definition unfit_surrogate : BayesianEstimator :=
  {| predict := fun _ => Raise UpstreamFailure; y_max := 0 |}.

(** A surrogate that answers with a column of means, one row per candidate. *)
Definition column_surrogate : BayesianEstimator :=
  {| predict := fun _ => Ok (column [0; 0], vector [1; 5]); y_max := 0 |}.

(** A surrogate whose first uncertainty is exactly zero. *)
Definition zero_std_surrogate : BayesianEstimator :=
  {| predict := fun _ => Ok (column [1; 2], vector [0; 1]); y_max := 0 |}.

(** The surrogate of the specification's UCB scenario, its means returned
    as a flat sequence. *)
Definition flat_ucb_surrogate : BayesianEstimator :=
  {| predict := fun _ => Ok (vector [0; 0], vector [1; 5]); y_max := 0 |}.

(** mean = [1.0, 2.0, 0.5], std = [0.1, 0.1, 0.1], best observed value 1.5;
    the surrogate answers one mean per candidate, as a column. *)
Definition scenario_column : BayesianEstimator :=
  {| predict := fun _ => Ok (column [1; 2; / 2], vector [/ 10; / 10; / 10]);
     y_max := 3 / 2 |}.

(** The expected improvement of one candidate of the scenario. *)
Definition scenario_score (ndtr norm_pdf : R -> R) (m : R) : R :=
  (m - 3 / 2 - 0) * ndtr ((m - 3 / 2 - 0) / / 10)
  + / 10 * norm_pdf ((m - 3 / 2 - 0) / / 10).

(** A surrogate that answers its uncertainties as a row of shape (1, 2). *)
Definition row_std_surrogate : BayesianEstimator :=
  {| predict := fun _ => Ok (column [1; 2], mk_array [1%nat; 2%nat] [3; 4]);
     y_max := 5 |}.

(** ** A standard normal pair

    The integral of the bell from 0 is a primitive of it, increasing, odd
    and bounded; normalised by twice its supremum it is a distribution
    function that meets the contract. *)

Lemma derivable_pt_lim_local (f g : R -> R) (x l : R) (r : R) :
  0 < r -> (forall y, Rabs (y - x) < r -> f y = g y) ->
  derivable_pt_lim g x l -> derivable_pt_lim f x l.
Proof.
  intros Hr Heq Hg eps Heps.
  destruct (Hg eps Heps) as [delta Hd].
  assert (Hm : 0 < Rmin delta r) by (apply Rmin_pos; [apply cond_pos | exact Hr]).
  exists (mkposreal _ Hm); simpl; intros h Hh0 Hh.
  rewrite (Heq (x + h)), (Heq x).
  - apply Hd; [exact Hh0 |].
    apply Rlt_le_trans with (1 := Hh), Rmin_l.
  - replace (x - x) with 0 by ring; rewrite Rabs_R0; exact Hr.
  - replace (x + h - x) with h by ring.
    apply Rlt_le_trans with (1 := Hh), Rmin_r.
Qed.

Lemma derivable_pt_lim_ext (f g : R -> R) (x l : R) :
  (forall y, f y = g y) -> derivable_pt_lim g x l -> derivable_pt_lim f x l.
Proof.
  intros Heq; apply (derivable_pt_lim_local f g x l 1); [lra |].
  intros y _; apply Heq.
Qed.

Lemma gauss_pos (t : R) : 0 < gauss t.
Proof. apply exp_pos. Qed.

Lemma gauss_deriv (x : R) : derivable_pt_lim gauss x (- x * gauss x).
Proof.
  apply derivable_pt_lim_ext
    with (g := comp exp (mult_real_fct (- / 2) (id * id)%F)).
  - intros y; unfold gauss, comp, mult_real_fct, mult_fct, id; f_equal; field.
  - replace (- x * gauss x)
      with (exp (mult_real_fct (- / 2) (id * id)%F x) * (- / 2 * (1 * id x + id x * 1))).
    + apply derivable_pt_lim_comp.
      * apply derivable_pt_lim_scal, derivable_pt_lim_mult; apply derivable_pt_lim_id.
      * apply derivable_pt_lim_exp.
    + unfold gauss, mult_real_fct, mult_fct, id.
      replace (- / 2 * (x * x)) with (- (x * x) / 2) by field. field.
Qed.

Lemma gauss_continuity (x : R) : continuity_pt gauss x.
Proof.
  apply derivable_continuous_pt.
  exists (- x * gauss x); apply gauss_deriv.
Qed.

Lemma gauss_integrable (a b : R) : Riemann_integrable gauss a b.
Proof.
  destruct (Rle_dec a b) as [H | H].
  - apply continuity_implies_RiemannInt; [exact H |].
    intros x _; apply gauss_continuity.
  - apply RiemannInt_P1, continuity_implies_RiemannInt; [lra |].
    intros x _; apply gauss_continuity.
Qed.

Definition gauss_int (x : R) : R := RiemannInt (gauss_integrable 0 x).

Lemma gauss_int_0 : gauss_int 0 = 0.
Proof. apply RiemannInt_P9. Qed.

Lemma gauss_int_deriv (x : R) : derivable_pt_lim gauss_int x (gauss x).
Proof.
  assert (h : x - 1 <= x + 1) by lra.
  assert (C0 : forall y, x - 1 <= y <= x + 1 -> continuity_pt gauss y)
    by (intros y _; apply gauss_continuity).
  apply derivable_pt_lim_local
    with (g := (fct_cte (gauss_int (x - 1)) + primitive h (FTC_P1 h C0))%F) (r := 1);
    [lra | |].
  - intros y Hy.
    apply Rabs_def2 in Hy.
    unfold plus_fct, fct_cte, primitive.
    destruct (Rle_dec (x - 1) y) as [H1 | H1]; [| lra].
    destruct (Rle_dec y (x + 1)) as [H2 | H2]; [| lra].
    unfold gauss_int; symmetry; apply RiemannInt_P26.
  - replace (gauss x) with (0 + gauss x) by ring.
    apply derivable_pt_lim_plus; [apply derivable_pt_lim_const |].
    apply RiemannInt_P28; lra.
Qed.

Definition gauss_int_derivable : derivable gauss_int :=
  fun x => exist _ (gauss x) (gauss_int_deriv x).

Lemma gauss_int_incr (x y : R) : x < y -> gauss_int x < gauss_int y.
Proof.
  apply (positive_derivative gauss_int gauss_int_derivable).
  intros t; simpl; apply gauss_pos.
Qed.

Lemma gauss_le_atan' (x : R) : gauss x <= 2 * / (1 + x ^ 2).
Proof.
  unfold gauss.
  assert (Hu : 0 <= x * x / 2) by nra.
  assert (H1 : 1 + x * x / 2 <= exp (x * x / 2)) by apply exp_ineq1_le.
  replace (- (x * x) / 2) with (- (x * x / 2)) by field.
  rewrite exp_Ropp.
  apply Rle_trans with (/ (1 + x * x / 2)).
  - apply Rinv_le_contravar; [lra | exact H1].
  - replace (2 * / (1 + x ^ 2)) with (/ ((1 + x ^ 2) / 2)) by (field; nra).
    apply Rinv_le_contravar; nra.
Qed.

Definition atan_gap (x : R) : R := 2 * atan x - gauss_int x.

Lemma atan_gap_deriv (x : R) :
  derivable_pt_lim atan_gap x (2 * / (1 + x ^ 2) - gauss x).
Proof.
  unfold atan_gap.
  apply (derivable_pt_lim_minus (mult_real_fct 2 atan) gauss_int).
  - apply derivable_pt_lim_scal, derivable_pt_lim_atan.
  - apply gauss_int_deriv.
Qed.

Definition atan_gap_derivable : derivable atan_gap :=
  fun x => exist _ _ (atan_gap_deriv x).

Lemma atan_gap_incr (x y : R) : x <= y -> atan_gap x <= atan_gap y.
Proof.
  apply (nonneg_derivative_1 atan_gap atan_gap_derivable).
  intros t; change (0 <= 2 * / (1 + t ^ 2) - gauss t).
  pose proof (gauss_le_atan' t); lra.
Qed.

Lemma gauss_int_upper (x : R) : gauss_int x < Rtrigo1.PI.
Proof.
  destruct (Rle_dec 0 x) as [H | H].
  - pose proof (atan_gap_incr 0 x H) as Hg.
    unfold atan_gap in Hg; rewrite atan_0, gauss_int_0 in Hg.
    pose proof (atan_bound x); lra.
  - pose proof (gauss_int_incr x 0 ltac:(lra)) as Hi.
    rewrite gauss_int_0 in Hi. pose proof PI_RGT_0; lra.
Qed.

Lemma gauss_int_odd (x : R) : gauss_int (- x) = - gauss_int x.
Proof.
  set (S := (gauss_int + comp gauss_int (- id))%F).
  assert (HS : forall t, derivable_pt_lim S t 0).
  { intros t; unfold S.
    replace 0 with (gauss t + gauss (- t) * -1).
    - apply derivable_pt_lim_plus; [apply gauss_int_deriv |].
      apply derivable_pt_lim_comp.
      + apply derivable_pt_lim_opp, derivable_pt_lim_id.
      + apply gauss_int_deriv.
    - unfold gauss; replace (- t * - t) with (t * t) by ring; ring. }
  pose (dS := (fun t => exist _ 0 (HS t)) : derivable S).
  assert (Hc : constant S)
    by (apply (null_derivative_1 S dS); intros t; reflexivity).
  specialize (Hc x 0).
  unfold S, plus_fct, comp, opp_fct, id in Hc.
  rewrite Ropp_0, gauss_int_0 in Hc; lra.
Qed.

Definition gauss_range (y : R) : Prop := exists x, y = gauss_int x.

Lemma gauss_range_bound : bound gauss_range.
Proof.
  exists Rtrigo1.PI; intros y [x ->]; left; apply gauss_int_upper.
Qed.

Lemma gauss_range_inhabited : exists y, gauss_range y.
Proof. exists (gauss_int 0), 0; reflexivity. Qed.

Definition gauss_sup : R :=
  proj1_sig (completeness gauss_range gauss_range_bound gauss_range_inhabited).

Lemma gauss_sup_lub : is_lub gauss_range gauss_sup.
Proof.
  unfold gauss_sup;
    destruct (completeness gauss_range gauss_range_bound gauss_range_inhabited);
    assumption.
Qed.

Lemma gauss_int_lt_sup (x : R) : gauss_int x < gauss_sup.
Proof.
  apply Rlt_le_trans with (gauss_int (x + 1)).
  - apply gauss_int_incr; lra.
  - apply (proj1 gauss_sup_lub); exists (x + 1); reflexivity.
Qed.

Lemma gauss_sup_pos : 0 < gauss_sup.
Proof. rewrite <- gauss_int_0; apply gauss_int_lt_sup. Qed.

Lemma gauss_int_near_sup (eps : R) :
  0 < eps -> exists M, forall x, M < x -> gauss_sup - eps < gauss_int x.
Proof.
  intros Heps.
  destruct (Rlt_dec (gauss_sup - eps) gauss_sup) as [_ | H]; [| lra].
  assert (Hex : ~ is_upper_bound gauss_range (gauss_sup - eps)).
  { intros Hub. pose proof (proj2 gauss_sup_lub _ Hub); lra. }
  assert (Hx : exists x, gauss_sup - eps < gauss_int x).
  { apply Classical_Prop.NNPP; intros Hn; apply Hex.
    intros y [x ->]; apply Rnot_lt_le; intros Hlt; apply Hn; exists x; exact Hlt. }
  destruct Hx as [x0 Hx0]; exists x0; intros x Hx.
  pose proof (gauss_int_incr x0 x Hx); lra.
Qed.

(** The standard normal distribution function and density. *)
Definition std_normal_cdf (x : R) : R := (gauss_sup + gauss_int x) / (2 * gauss_sup).
Definition std_normal_pdf (x : R) : R := gauss x / (2 * gauss_sup).

(** The pair meets the contract. *)
Lemma std_normal_contract : standard_normal std_normal_cdf std_normal_pdf.
Proof.
  pose proof gauss_sup_pos as HU.
  split.
  - intros z; unfold std_normal_pdf, gauss.
    replace (- (0 * 0) / 2) with 0 by field; rewrite exp_0; field; lra.
  - intros z; unfold std_normal_cdf, std_normal_pdf.
    apply derivable_pt_lim_ext
      with (g := mult_real_fct (/ (2 * gauss_sup)) (fct_cte gauss_sup + gauss_int)%F).
    + intros y; unfold mult_real_fct, plus_fct, fct_cte; field; lra.
    + replace (gauss z / (2 * gauss_sup)) with (/ (2 * gauss_sup) * (0 + gauss z))
        by (field; lra).
      apply derivable_pt_lim_scal, derivable_pt_lim_plus;
        [apply derivable_pt_lim_const | apply gauss_int_deriv].
  - intros eps Heps.
    destruct (gauss_int_near_sup (eps * (2 * gauss_sup))) as [M HM]; [nra |].
    exists (- M); intros x Hx.
    specialize (HM (- x) ltac:(lra)); rewrite gauss_int_odd in HM.
    pose proof (gauss_int_lt_sup (- x)) as Hlt; rewrite gauss_int_odd in Hlt.
    unfold std_normal_cdf.
    assert (H0 : 0 < (gauss_sup + gauss_int x) / (2 * gauss_sup))
      by (apply Rdiv_lt_0_compat; lra).
    rewrite Rabs_pos_eq by lra.
    apply Rmult_lt_reg_r with (2 * gauss_sup); [lra |].
    replace ((gauss_sup + gauss_int x) / (2 * gauss_sup) * (2 * gauss_sup))
      with (gauss_sup + gauss_int x) by (field; lra).
    lra.
  - intros eps Heps.
    destruct (gauss_int_near_sup (eps * (2 * gauss_sup))) as [M HM]; [nra |].
    exists M; intros x Hx.
    specialize (HM x Hx).
    pose proof (gauss_int_lt_sup x) as Hlt.
    unfold std_normal_cdf.
    replace ((gauss_sup + gauss_int x) / (2 * gauss_sup) - 1)
      with (- ((gauss_sup - gauss_int x) / (2 * gauss_sup))) by (field; lra).
    rewrite Rabs_Ropp.
    assert (H0 : 0 < (gauss_sup - gauss_int x) / (2 * gauss_sup))
      by (apply Rdiv_lt_0_compat; lra).
    rewrite Rabs_pos_eq by lra.
    apply Rmult_lt_reg_r with (2 * gauss_sup); [lra |].
    replace ((gauss_sup - gauss_int x) / (2 * gauss_sup) * (2 * gauss_sup))
      with (gauss_sup - gauss_int x) by (field; lra).
    lra.
Qed.

(** ** Arrays: row-major enumeration and broadcasting *)

Lemma indices_length (s : list nat) : length (indices s) = size_of s.
Proof.
  induction s as [| d s IH]; simpl; [reflexivity |].
  generalize 0%nat as start.
  induction d as [| d IHd]; intros start; simpl; [reflexivity |].
  rewrite length_app, length_map, IH, IHd; reflexivity.
Qed.

Lemma indices_rank (s : list nat) (idx : list nat) :
  In idx (indices s) -> length idx = length s.
Proof.
  revert idx; induction s as [| d s IH]; simpl; intros idx H.
  - destruct H as [<- | []]; reflexivity.
  - apply in_flat_map in H as (i & _ & H).
    apply in_map_iff in H as (idx' & <- & H).
    simpl; f_equal; apply IH, H.
Qed.

Lemma clip_lt (d i : nat) : (i < d)%nat -> clip d i = i.
Proof.
  unfold clip; intros H.
  destruct (Nat.eqb_spec d 1) as [-> | _]; [lia | reflexivity].
Qed.

Lemma seq_app_block (a p k : nat) :
  seq (a * p) p ++ seq ((a + 1) * p) (k * p) = seq (a * p) ((1 + k) * p).
Proof.
  replace ((1 + k) * p)%nat with (p + k * p)%nat by lia.
  rewrite seq_app; do 2 f_equal; lia.
Qed.

Lemma ravel_indices (s : list nat) :
  forall acc,
    map (fun idx => ravel s idx acc) (indices s)
    = seq (acc * size_of s) (size_of s).
Proof.
  induction s as [| d s IH]; intros acc; simpl.
  - rewrite Nat.mul_1_r; reflexivity.
  - assert (Hblk : forall k start, (start + k <= d)%nat ->
      map (fun idx => ravel (d :: s) idx acc)
          (flat_map (fun i => map (cons i) (indices s)) (seq start k))
      = seq ((acc * d + start) * size_of s) (k * size_of s)).
    { induction k as [| k IHk]; intros start Hle; simpl; [reflexivity |].
      rewrite map_app, map_map; simpl.
      rewrite clip_lt by lia.
      rewrite IH, IHk by lia.
      replace (acc * d + S start)%nat with (acc * d + start + 1)%nat by lia.
      apply (seq_app_block (acc * d + start) (size_of s) k). }
    specialize (Hblk d 0%nat (Nat.le_refl _)); simpl in Hblk.
    rewrite Hblk; f_equal; lia.
Qed.

Lemma map_nth_seq_all (l : list R) :
  map (fun k => nth k l 0) (seq 0 (length l)) = l.
Proof.
  induction l as [| x l IH]; simpl; [reflexivity |].
  rewrite <- seq_shift, map_map; simpl; rewrite IH; reflexivity.
Qed.

Lemma lpad_same (s : list nat) : lpad (length s) s = s.
Proof. unfold lpad; rewrite Nat.sub_diag; reflexivity. Qed.

(** Reading a well-formed array at the indices of its own shape yields its
    buffer. *)
Lemma bget_own (a : ndarray) :
  wf a -> map (bget a) (indices (shape a)) = data a.
Proof.
  intros Hwf.
  rewrite (map_ext_in (bget a) (fun idx => nth (ravel (shape a) idx 0) (data a) 0)).
  - rewrite <- (map_map (fun idx => ravel (shape a) idx 0) (fun k => nth k (data a) 0)).
    rewrite ravel_indices; simpl.
    rewrite <- Hwf; apply map_nth_seq_all.
  - intros idx Hin; unfold bget.
    rewrite (indices_rank _ _ Hin), lpad_same; reflexivity.
Qed.

Lemma ravel_ones (n : nat) (idx : list nat) : ravel (repeat 1%nat n) idx 0 = 0%nat.
Proof.
  revert idx; induction n as [| n IH]; intros [| i idx]; simpl; try reflexivity.
  apply IH.
Qed.

Lemma bget_scalar (c : R) (idx : list nat) : bget (scalar c) idx = c.
Proof.
  unfold bget, lpad; simpl.
  rewrite Nat.sub_0_r, app_nil_r, ravel_ones; reflexivity.
Qed.

Lemma bc_dim_same (d : nat) : bc_dim d d = Some d.
Proof. unfold bc_dim; rewrite Nat.eqb_refl; reflexivity. Qed.

Lemma bc_dim_one_r (d : nat) : bc_dim d 1 = Some d.
Proof.
  unfold bc_dim; destruct (Nat.eqb_spec d 1) as [-> | _]; [reflexivity |].
  destruct (Nat.eqb_spec d 1); reflexivity.
Qed.

Lemma bc_dim_one_l (d : nat) : bc_dim 1 d = Some d.
Proof.
  unfold bc_dim; destruct (Nat.eqb_spec 1 d) as [<- | _]; reflexivity.
Qed.

Lemma bc_zip_same (s : list nat) : bc_zip s s = Some s.
Proof.
  induction s as [| d s IH]; simpl; [reflexivity |].
  rewrite bc_dim_same, IH; reflexivity.
Qed.

Lemma bc_zip_ones_r (s : list nat) : bc_zip s (repeat 1%nat (length s)) = Some s.
Proof.
  induction s as [| d s IH]; simpl; [reflexivity |].
  rewrite bc_dim_one_r, IH; reflexivity.
Qed.

Lemma bc_zip_ones_l (s : list nat) : bc_zip (repeat 1%nat (length s)) s = Some s.
Proof.
  induction s as [| d s IH]; simpl; [reflexivity |].
  rewrite bc_dim_one_l, IH; reflexivity.
Qed.

Lemma broadcast_shapes_same (s : list nat) : broadcast_shapes s s = Some s.
Proof.
  unfold broadcast_shapes; rewrite Nat.max_id, lpad_same; apply bc_zip_same.
Qed.

Lemma broadcast_shapes_scalar_r (s : list nat) : broadcast_shapes s [] = Some s.
Proof.
  unfold broadcast_shapes; simpl; rewrite Nat.max_0_r, lpad_same.
  unfold lpad; simpl; rewrite Nat.sub_0_r, app_nil_r; apply bc_zip_ones_r.
Qed.

Lemma broadcast_shapes_scalar_l (s : list nat) : broadcast_shapes [] s = Some s.
Proof.
  unfold broadcast_shapes; simpl; rewrite lpad_same.
  unfold lpad; simpl; rewrite Nat.sub_0_r, app_nil_r; apply bc_zip_ones_l.
Qed.

(** An operator succeeds exactly on broadcastable shapes, and the result has
    the broadcast shape. *)
Lemma broadcast2_ok (f : R -> R -> R) (a b : ndarray) (s : list nat) :
  broadcast_shapes (shape a) (shape b) = Some s ->
  exists r, broadcast2 f a b = Ok r /\ shape r = s /\ wf r.
Proof.
  intros H; unfold broadcast2; rewrite H.
  eexists; split; [reflexivity | split; [reflexivity |]].
  unfold wf; simpl; rewrite length_map; apply indices_length.
Qed.

Lemma broadcast2_raises (f : R -> R -> R) (a b : ndarray) :
  broadcast_shapes (shape a) (shape b) = None ->
  broadcast2 f a b = Raise ValueError.
Proof. intros H; unfold broadcast2; rewrite H; reflexivity. Qed.

Lemma broadcast2_scalar_r (f : R -> R -> R) (a : ndarray) (c : R) :
  wf a ->
  broadcast2 f a (scalar c)
  = Ok (mk_array (shape a) (map (fun x => f x c) (data a))).
Proof.
  intros Hwf; unfold broadcast2; simpl.
  rewrite broadcast_shapes_scalar_r; do 2 f_equal.
  rewrite <- (bget_own a Hwf), map_map.
  apply map_ext; intros idx; rewrite bget_scalar; reflexivity.
Qed.

Lemma broadcast2_scalar_l (f : R -> R -> R) (a : ndarray) (c : R) :
  wf a ->
  broadcast2 f (scalar c) a
  = Ok (mk_array (shape a) (map (fun x => f c x) (data a))).
Proof.
  intros Hwf; unfold broadcast2; simpl.
  rewrite broadcast_shapes_scalar_l; do 2 f_equal.
  rewrite <- (bget_own a Hwf), map_map.
  apply map_ext; intros idx; rewrite bget_scalar; reflexivity.
Qed.

Lemma map_combine_nth (f : R -> R -> R) (l1 l2 : list R) :
  length l1 = length l2 ->
  map (fun k => f (nth k l1 0) (nth k l2 0)) (seq 0 (length l1))
  = map (fun p => f (fst p) (snd p)) (combine l1 l2).
Proof.
  revert l2; induction l1 as [| x l1 IH]; intros [| y l2] H; simpl in *;
    try discriminate; [reflexivity |].
  f_equal; rewrite <- seq_shift, map_map; simpl; apply IH; lia.
Qed.

(** Two well-formed arrays of one shape are combined element by element. *)
Lemma broadcast2_same (f : R -> R -> R) (a b : ndarray) :
  wf a -> wf b -> shape a = shape b ->
  broadcast2 f a b
  = Ok (mk_array (shape a)
          (map (fun p => f (fst p) (snd p)) (combine (data a) (data b)))).
Proof.
  intros Ha Hb Hs; unfold broadcast2.
  rewrite <- Hs, broadcast_shapes_same; do 2 f_equal.
  rewrite <- map_combine_nth by (rewrite Ha, Hb, Hs; reflexivity).
  pose proof (ravel_indices (shape a) 0) as E; simpl in E.
  rewrite Ha, <- E, map_map.
  apply map_ext_in; intros idx Hin; unfold bget.
  rewrite <- Hs, (indices_rank _ _ Hin), lpad_same; reflexivity.
Qed.

(** numpy's behaviour on small arrays, as the embedding computes it. *)

Example broadcast_row_against_column :
  np_add (vector [1; 2; 3]) (column [10; 20])
  = Ok (mk_array [2%nat; 3%nat]
          [1 + 10; 2 + 10; 3 + 10; 1 + 20; 2 + 20; 3 + 20]).
Proof. reflexivity. Qed.

Example broadcast_incompatible :
  np_add (mk_array [2%nat; 3%nat] [1; 2; 3; 4; 5; 6]) (vector [1; 2])
  = Raise ValueError.
Proof. reflexivity. Qed.

Example reshape_col_of_vector :
  reshape_col (vector [1; 2; 3]) = column [1; 2; 3].
Proof. reflexivity. Qed.

Example take_rows :
  take (mk_array [3%nat; 2%nat] [1; 2; 3; 4; 5; 6]) [2%nat; 0%nat]
  = Ok (mk_array [2%nat; 2%nat] [5; 6; 1; 2]).
Proof. reflexivity. Qed.

Example take_out_of_bounds :
  take (mk_array [3%nat; 2%nat] [1; 2; 3; 4; 5; 6]) [3%nat] = Raise IndexError.
Proof. reflexivity. Qed.

(** ** Consequences of the contract *)

Section StandardNormal.

Variables ndtr norm_pdf : R -> R.
Hypothesis N : standard_normal ndtr norm_pdf.

Lemma cdf_mvt (x y : R) :
  x < y -> exists c, ndtr y - ndtr x = norm_pdf c * (y - x) /\ x < c < y.
Proof.
  intros Hxy; apply MVT_cor2; [exact Hxy |].
  intros c _; apply (cdf_deriv _ _ N).
Qed.

Lemma pdf_sign (z : R) : norm_pdf z = norm_pdf 0 * gauss z.
Proof. apply (pdf_shape _ _ N). Qed.

Lemma pdf0_pos : 0 < norm_pdf 0.
Proof.
  destruct (Rlt_dec 0 (norm_pdf 0)) as [H | H]; [exact H | exfalso].
  destruct (cdf_at_minus_infinity _ _ N (/ 4)) as [M1 H1]; [lra |].
  destruct (cdf_at_plus_infinity _ _ N (/ 4)) as [M2 H2]; [lra |].
  set (x := Rmin M1 M2 - 1); set (y := Rmax M1 M2 + 1).
  assert (Hx : x < M1) by (unfold x; pose proof (Rmin_l M1 M2); lra).
  assert (Hy : M2 < y) by (unfold y; pose proof (Rmax_r M1 M2); lra).
  assert (Hxy : x < y).
  { unfold x, y; pose proof (Rmin_l M1 M2); pose proof (Rmax_l M1 M2); lra. }
  destruct (cdf_mvt x y Hxy) as (c & Hc & _).
  rewrite (pdf_sign c) in Hc.
  pose proof (gauss_pos c) as Hg.
  apply H1, Rabs_def2 in Hx; apply H2, Rabs_def2 in Hy.
  assert (Hp : norm_pdf 0 * gauss c <= 0) by nra.
  assert (norm_pdf 0 * gauss c * (y - x) <= 0) by nra.
  lra.
Qed.

Lemma pdf_pos (z : R) : 0 < norm_pdf z.
Proof.
  rewrite pdf_sign; apply Rmult_lt_0_compat; [apply pdf0_pos | apply gauss_pos].
Qed.

Lemma cdf_incr (x y : R) : x < y -> ndtr x < ndtr y.
Proof.
  intros Hxy; destruct (cdf_mvt x y Hxy) as (c & Hc & _).
  pose proof (pdf_pos c); nra.
Qed.

Lemma cdf_pos (x : R) : 0 < ndtr x.
Proof.
  destruct (Rlt_dec 0 (ndtr x)) as [H | H]; [exact H | exfalso].
  pose proof (cdf_incr (x - 1) x ltac:(lra)) as H0.
  destruct (cdf_at_minus_infinity _ _ N (- ndtr (x - 1))) as [M HM]; [lra |].
  set (w := Rmin M (x - 1) - 1).
  assert (Hw : w < M) by (unfold w; pose proof (Rmin_l M (x - 1)); lra).
  assert (Hw' : w < x - 1) by (unfold w; pose proof (Rmin_r M (x - 1)); lra).
  apply HM, Rabs_def2 in Hw. apply cdf_incr in Hw'. lra.
Qed.

Lemma cdf_lt_1 (x : R) : ndtr x < 1.
Proof.
  destruct (Rlt_dec (ndtr x) 1) as [H | H]; [exact H | exfalso].
  pose proof (cdf_incr x (x + 1) ltac:(lra)) as H0.
  destruct (cdf_at_plus_infinity _ _ N (ndtr (x + 1) - 1)) as [M HM]; [lra |].
  set (w := Rmax M (x + 1) + 1).
  assert (Hw : M < w) by (unfold w; pose proof (Rmax_l M (x + 1)); lra).
  assert (Hw' : x + 1 < w) by (unfold w; pose proof (Rmax_r M (x + 1)); lra).
  apply HM, Rabs_def2 in Hw. apply cdf_incr in Hw'. lra.
Qed.

Lemma pdf_deriv (z : R) : derivable_pt_lim norm_pdf z (- z * norm_pdf z).
Proof.
  apply derivable_pt_lim_ext with (g := mult_real_fct (norm_pdf 0) gauss).
  - intros y; apply pdf_sign.
  - replace (- z * norm_pdf z) with (norm_pdf 0 * (- z * gauss z))
      by (rewrite (pdf_sign z); ring).
    apply derivable_pt_lim_scal, gauss_deriv.
Qed.

(** The Mills ratio bound in the form the expected improvement needs. *)
Lemma mills (z : R) : 0 <= z * ndtr z + norm_pdf z.
Proof.
  destruct (Rle_dec 0 z) as [Hz | Hz].
  - pose proof (cdf_pos z); pose proof (pdf_pos z); nra.
  - assert (Hz' : z < 0) by lra; clear Hz.
    set (c := ndtr z + norm_pdf z / z).
    assert (Hw : forall w, w < z -> c < ndtr w).
    { intros w Hwz.
      destruct (MVT_cor2 (ndtr + mult_real_fct (/ z) norm_pdf)%F
                  (fun t => norm_pdf t + / z * (- t * norm_pdf t)) w z Hwz)
        as (t & Ht & Hwt).
      { intros t _; apply derivable_pt_lim_plus;
          [apply (cdf_deriv _ _ N) | apply derivable_pt_lim_scal, pdf_deriv]. }
      unfold plus_fct, mult_real_fct in Ht.
      pose proof (pdf_pos t) as Hpt; pose proof (pdf_pos w) as Hpw.
      assert (Hiz : / z < 0) by (apply Rinv_lt_0_compat; exact Hz').
      assert (Hd : norm_pdf t + / z * (- t * norm_pdf t) < 0).
      { assert (1 < t * / z).
        { apply Rmult_lt_reg_r with (- z); [lra |].
          replace (t * / z * - z) with (- t) by (field; lra). lra. }
        nra. }
      unfold c, Rdiv.
      assert (/ z * norm_pdf w < 0) by nra.
      nra. }
    assert (Hc : c <= 0).
    { destruct (Rle_dec c 0) as [H | H]; [exact H | exfalso].
      destruct (cdf_at_minus_infinity _ _ N c) as [M HM]; [lra |].
      set (w := Rmin M z - 1).
      assert (Hw1 : w < M) by (unfold w; pose proof (Rmin_l M z); lra).
      assert (Hw2 : w < z) by (unfold w; pose proof (Rmin_r M z); lra).
      apply HM, Rabs_def2 in Hw1. apply Hw in Hw2. lra. }
    replace (z * ndtr z + norm_pdf z) with (z * c) by (unfold c; field; lra).
    nra.
Qed.

End StandardNormal.

(** ** The formulas on arrays of one shape *)

Lemma zip_with_length (f : R -> R -> R) (l1 l2 : list R) :
  length l1 = length l2 -> length (zip_with f l1 l2) = length l1.
Proof.
  intros H; unfold zip_with; rewrite length_map, length_combine, <- H.
  apply Nat.min_id.
Qed.

Lemma zip_with_Forall (f : R -> R -> R) (P Q : R -> Prop) (l1 l2 : list R) :
  Forall Q l2 ->
  (forall x y, Q y -> P (f x y)) ->
  Forall P (zip_with f l1 l2).
Proof.
  intros HQ Hf; unfold zip_with; apply Forall_forall; intros e He.
  apply in_map_iff in He as ([x y] & <- & Hin); simpl.
  apply Hf; rewrite Forall_forall in HQ; apply HQ.
  apply in_combine_r in Hin; exact Hin.
Qed.

Lemma zip_with_PI (ndtr : R -> R) (g : R -> R) (l1 l2 : list R) :
  map ndtr (zip_with Rdiv (map g l1) l2)
  = zip_with (fun m s => ndtr (g m / s)) l1 l2.
Proof.
  unfold zip_with; revert l2; induction l1 as [| x l1 IH]; intros [| y l2];
    simpl; try reflexivity.
  f_equal; apply IH.
Qed.

Lemma zip_with_EI (ndtr norm_pdf : R -> R) (g : R -> R) (l1 l2 : list R) :
  zip_with Rplus
    (zip_with Rmult (map g l1) (map ndtr (zip_with Rdiv (map g l1) l2)))
    (zip_with Rmult l2 (map norm_pdf (zip_with Rdiv (map g l1) l2)))
  = zip_with (fun m s => g m * ndtr (g m / s) + s * norm_pdf (g m / s)) l1 l2.
Proof.
  unfold zip_with; revert l2; induction l1 as [| x l1 IH]; intros [| y l2];
    simpl; try reflexivity.
  f_equal; apply IH.
Qed.

Lemma broadcast2_mk (f : R -> R -> R) (s : list nat) (l1 l2 : list R) :
  length l1 = size_of s -> length l2 = size_of s ->
  broadcast2 f (mk_array s l1) (mk_array s l2)
  = Ok (mk_array s (zip_with f l1 l2)).
Proof.
  intros H1 H2; apply (broadcast2_same f (mk_array s l1) (mk_array s l2));
    [exact H1 | exact H2 | reflexivity].
Qed.

Lemma broadcast2_mk_scalar_r (f : R -> R -> R) (s : list nat) (l : list R) (c : R) :
  length l = size_of s ->
  broadcast2 f (mk_array s l) (scalar c)
  = Ok (mk_array s (map (fun x => f x c) l)).
Proof. intros H; apply (broadcast2_scalar_r f (mk_array s l) c H). Qed.

Ltac solve_len :=
  repeat first
    [ assumption
    | congruence
    | rewrite length_map
    | rewrite zip_with_length ].

Lemma PI_same_shape (ndtr : R -> R) (mean std : ndarray) (max_val tradeoff : R) :
  wf mean -> wf std -> shape mean = shape std ->
  PI ndtr mean std max_val tradeoff
  = Ok (mk_array (shape mean)
          (zip_with (fun m s => ndtr ((m - max_val - tradeoff) / s))
             (data mean) (data std))).
Proof.
  destruct mean as [s lm], std as [s' ls]; unfold wf; cbn [shape data].
  intros Hm Hs <-.
  unfold PI, np_sub, np_div, ufunc.
  rewrite broadcast2_mk_scalar_r by solve_len; cbn [bind].
  rewrite broadcast2_mk_scalar_r by solve_len; cbn [bind].
  rewrite broadcast2_mk by solve_len; cbn [bind shape data].
  rewrite map_map, zip_with_PI; reflexivity.
Qed.

Lemma EI_same_shape (ndtr norm_pdf : R -> R) (mean std : ndarray)
    (max_val tradeoff : R) :
  wf mean -> wf std -> shape mean = shape std ->
  EI ndtr norm_pdf mean std max_val tradeoff
  = Ok (mk_array (shape mean)
          (zip_with
             (fun m s =>
                (m - max_val - tradeoff) * ndtr ((m - max_val - tradeoff) / s)
                + s * norm_pdf ((m - max_val - tradeoff) / s))
             (data mean) (data std))).
Proof.
  destruct mean as [s lm], std as [s' ls]; unfold wf; cbn [shape data].
  intros Hm Hs <-.
  assert (Hlen : length lm = length ls) by congruence.
  unfold EI, np_sub, np_div, np_mul, np_add, ufunc.
  rewrite broadcast2_mk_scalar_r by solve_len; cbn [bind].
  rewrite broadcast2_mk_scalar_r by solve_len; cbn [bind].
  rewrite broadcast2_mk by solve_len; cbn [bind shape data].
  rewrite map_map.
  rewrite broadcast2_mk by solve_len; cbn [bind].
  rewrite broadcast2_mk by solve_len; cbn [bind].
  rewrite broadcast2_mk by solve_len.
  rewrite zip_with_EI; reflexivity.
Qed.

Lemma nth_map_null (A : Type) (g : A -> R) (l : list A) (k : nat) :
  (forall x, g x = 0) -> nth k (map g l) 0 = 0.
Proof.
  intros Hg; revert k; induction l as [| x l IH]; intros [| k]; simpl;
    try reflexivity; [apply Hg | apply IH].
Qed.

(** ** The scoring formulas *)

(** C4: for mean and std of one shape and every std > 0, PI returns,
    element by element, the standard normal distribution function at
    (mean - max_val - tradeoff) / std, and every score lies in [0, 1]. *)
Theorem PI_is_normal_cdf_in_unit_interval
    (ndtr norm_pdf : R -> R) (mean std : ndarray) (max_val tradeoff : R) :
  standard_normal ndtr norm_pdf ->
  wf mean -> wf std -> shape mean = shape std ->
  Forall (fun s => 0 < s) (data std) ->
  exists scores,
    PI ndtr mean std max_val tradeoff = Ok scores
    /\ shape scores = shape mean
    /\ data scores
       = zip_with (fun m s => ndtr ((m - max_val - tradeoff) / s))
           (data mean) (data std)
    /\ Forall (fun p => 0 <= p <= 1) (data scores).
Proof.
  intros N Hm Hs Hsh Hpos.
  eexists; split; [apply PI_same_shape; assumption |].
  cbn [shape data]; repeat split.
  apply zip_with_Forall with (Q := fun s => 0 < s); [exact Hpos |].
  intros m s _.
  pose proof (cdf_pos _ _ N ((m - max_val - tradeoff) / s)).
  pose proof (cdf_lt_1 _ _ N ((m - max_val - tradeoff) / s)).
  lra.
Qed.

Lemma PI_is_normal_cdf_witness :
  exists scores,
    PI std_normal_cdf (vector [1; 2]) (vector [1; / 2]) (3 / 2) 0 = Ok scores
    /\ shape scores = [2%nat]
    /\ data scores
       = zip_with (fun m s => std_normal_cdf ((m - 3 / 2 - 0) / s)) [1; 2] [1; / 2]
    /\ Forall (fun p => 0 <= p <= 1) (data scores).
Proof.
  apply (PI_is_normal_cdf_in_unit_interval std_normal_cdf std_normal_pdf
           (vector [1; 2]) (vector [1; / 2]) (3 / 2) 0).
  - exact std_normal_contract.
  - reflexivity.
  - reflexivity.
  - reflexivity.
  - repeat constructor; simpl; lra.
Defined.

(** C5: for mean and std of one shape and every std > 0, EI with
    tradeoff = 0 returns, element by element,
    (mean - max_val - 0) * Phi(z) + std * phi(z) with
    z = (mean - max_val - 0) / std, and every score is >= 0. *)
Theorem EI_nonnegative_at_zero_tradeoff
    (ndtr norm_pdf : R -> R) (mean std : ndarray) (max_val : R) :
  standard_normal ndtr norm_pdf ->
  wf mean -> wf std -> shape mean = shape std ->
  Forall (fun s => 0 < s) (data std) ->
  exists scores,
    EI ndtr norm_pdf mean std max_val 0 = Ok scores
    /\ shape scores = shape mean
    /\ data scores
       = zip_with
           (fun m s =>
              (m - max_val - 0) * ndtr ((m - max_val - 0) / s)
              + s * norm_pdf ((m - max_val - 0) / s))
           (data mean) (data std)
    /\ Forall (fun e => 0 <= e) (data scores).
Proof.
  intros N Hm Hs Hsh Hpos.
  eexists; split; [apply EI_same_shape; assumption |].
  cbn [shape data]; repeat split.
  apply zip_with_Forall with (Q := fun s => 0 < s); [exact Hpos |].
  intros m s Hs0.
  set (z := (m - max_val - 0) / s).
  pose proof (mills _ _ N z) as Hmills.
  replace ((m - max_val - 0) * ndtr z + s * norm_pdf z)
    with (s * (z * ndtr z + norm_pdf z)) by (unfold z; field; lra).
  apply Rmult_le_pos; lra.
Qed.

Lemma EI_nonnegative_witness :
  exists scores,
    EI std_normal_cdf std_normal_pdf (vector [1; 2]) (vector [1; / 2]) (3 / 2) 0
    = Ok scores
    /\ shape scores = [2%nat]
    /\ data scores
       = zip_with
           (fun m s =>
              (m - 3 / 2 - 0) * std_normal_cdf ((m - 3 / 2 - 0) / s)
              + s * std_normal_pdf ((m - 3 / 2 - 0) / s))
           [1; 2] [1; / 2]
    /\ Forall (fun e => 0 <= e) (data scores).
Proof.
  apply (EI_nonnegative_at_zero_tradeoff std_normal_cdf std_normal_pdf
           (vector [1; 2]) (vector [1; / 2]) (3 / 2)).
  - exact std_normal_contract.
  - reflexivity.
  - reflexivity.
  - reflexivity.
  - repeat constructor; simpl; lra.
Defined.

(** C6: for every mean and every std that broadcasts into the shape of mean
    (in particular every std of the same shape), UCB with beta = 0 returns
    mean itself. *)
Theorem UCB_beta_zero_is_mean (mean std : ndarray) :
  wf mean ->
  broadcast_shapes (shape mean) (shape std) = Some (shape mean) ->
  UCB mean std 0 = Ok mean.
Proof.
  intros Hm Hbc; unfold UCB, np_mul, np_add.
  assert (Hr : broadcast2 Rmult (scalar 0) std
               = Ok (mk_array (shape std)
                       (map (fun idx => bget (scalar 0) idx * bget std idx)
                          (indices (shape std))))).
  { unfold broadcast2; simpl; rewrite broadcast_shapes_scalar_l; reflexivity. }
  rewrite Hr; cbn [bind].
  unfold broadcast2; cbn [shape]; rewrite Hbc.
  destruct mean as [s lm]; cbn [shape data] in *; do 2 f_equal.
  transitivity (map (bget (mk_array s lm)) (indices s));
    [| apply (bget_own (mk_array s lm) Hm)].
  apply map_ext; intros idx.
  unfold bget at 2; cbn [data].
  rewrite nth_map_null by (intros j; rewrite bget_scalar; apply Rmult_0_l).
  apply Rplus_0_r.
Qed.

Lemma UCB_beta_zero_witness :
  UCB (vector [1; 2]) (vector [3; 4]) 0 = Ok (vector [1; 2]).
Proof.
  apply (UCB_beta_zero_is_mean (vector [1; 2]) (vector [3; 4])).
  - reflexivity.
  - reflexivity.
Defined.

(** C10: EI is PI plus a density term: on every input,
    EI(mean, std, max_val, tradeoff)
    = (mean - max_val - tradeoff) * PI(mean, std, max_val, tradeoff)
      + std * phi((mean - max_val - tradeoff) / std),
    the right-hand side computed with the same array operations. *)
Theorem EI_from_PI (ndtr norm_pdf : R -> R) (mean std : ndarray)
    (max_val tradeoff : R) :
  EI ndtr norm_pdf mean std max_val tradeoff
  = (pi <- PI ndtr mean std max_val tradeoff;;
     m <- np_sub mean (scalar max_val);;
     m <- np_sub m (scalar tradeoff);;
     z <- np_div m std;;
     l <- np_mul m pi;;
     r <- np_mul std (ufunc norm_pdf z);;
     np_add l r).
Proof.
  unfold EI, PI.
  destruct (np_sub mean (scalar max_val)) as [m1 | e]; cbn [bind]; [| reflexivity].
  destruct (np_sub m1 (scalar tradeoff)) as [m2 | e]; cbn [bind]; [| reflexivity].
  destruct (np_div m2 std) as [z | e]; cbn [bind]; reflexivity.
Qed.

(** ** The adapters: shapes *)

Lemma bc_flat_col (n : nat) : broadcast_shapes [n] [n; 1%nat] = Some [n; n].
Proof.
  unfold broadcast_shapes, lpad; simpl.
  rewrite bc_dim_one_l, bc_dim_one_r; reflexivity.
Qed.

Lemma bc_col_flat (n : nat) : broadcast_shapes [n; 1%nat] [n] = Some [n; n].
Proof.
  unfold broadcast_shapes, lpad; simpl.
  rewrite bc_dim_one_l, bc_dim_one_r; reflexivity.
Qed.

Lemma bc_flat_square (n : nat) : broadcast_shapes [n] [n; n] = Some [n; n].
Proof.
  unfold broadcast_shapes, lpad; simpl.
  rewrite bc_dim_one_l, bc_dim_same; reflexivity.
Qed.

Lemma bc_col_square (n : nat) : broadcast_shapes [n; 1%nat] [n; n] = Some [n; n].
Proof.
  unfold broadcast_shapes, lpad; simpl.
  rewrite bc_dim_same, bc_dim_one_l; reflexivity.
Qed.

(** One step of an array computation whose operand shapes are known. *)
Lemma bind_broadcast2 {B : Type} (f : R -> R -> R) (a b : ndarray) (s : list nat)
    (k : ndarray -> result B) :
  broadcast_shapes (shape a) (shape b) = Some s ->
  exists r, shape r = s /\ wf r /\ bind (broadcast2 f a b) k = k r.
Proof.
  intros H; destruct (broadcast2_ok f a b s H) as (r & -> & Hs & Hwf).
  exists r; repeat split; assumption.
Qed.

Ltac step_with lem :=
  match goal with
  | |- context [bind (broadcast2 ?f ?a ?b) ?k] =>
      let r := fresh "r" in
      let Hs := fresh "Hs" in
      let Hw := fresh "Hw" in
      let He := fresh "He" in
      destruct (bind_broadcast2 f a b _ k lem) as (r & Hs & Hw & He);
      rewrite He; clear He
  end.

(** With a flat mean of length n the division by the (n,1) uncertainty
    broadcasts to n rows of n columns. *)
Lemma PI_flat_mean (ndtr : R -> R) (mean std : ndarray) (max_val tradeoff : R)
    (n : nat) :
  shape mean = [n] -> shape std = [n; 1%nat] ->
  exists pi, PI ndtr mean std max_val tradeoff = Ok pi
             /\ shape pi = [n; n] /\ wf pi.
Proof.
  intros Hm Hs; unfold PI, np_sub, np_div.
  step_with (broadcast_shapes_scalar_r (shape mean)).
  assert (H1 : broadcast_shapes (shape r) (shape (scalar tradeoff)) = Some [n])
    by (rewrite Hs0, Hm; apply broadcast_shapes_scalar_r).
  step_with H1.
  assert (H2 : broadcast_shapes (shape r0) (shape std) = Some [n; n])
    by (rewrite Hs1, Hs; apply bc_flat_col).
  step_with H2.
  eexists; split; [reflexivity |]; unfold ufunc, wf; cbn [shape data].
  split; [exact Hs2 |]; rewrite length_map; exact Hw1.
Qed.

Lemma EI_flat_mean (ndtr norm_pdf : R -> R) (mean std : ndarray)
    (max_val tradeoff : R) (n : nat) :
  shape mean = [n] -> shape std = [n; 1%nat] ->
  exists ei, EI ndtr norm_pdf mean std max_val tradeoff = Ok ei
             /\ shape ei = [n; n] /\ wf ei.
Proof.
  intros Hm Hs; unfold EI, np_sub, np_div, np_mul, np_add.
  step_with (broadcast_shapes_scalar_r (shape mean)).
  assert (H1 : broadcast_shapes (shape r) (shape (scalar tradeoff)) = Some [n])
    by (rewrite Hs0, Hm; apply broadcast_shapes_scalar_r).
  step_with H1.
  assert (H2 : broadcast_shapes (shape r0) (shape std) = Some [n; n])
    by (rewrite Hs1, Hs; apply bc_flat_col).
  step_with H2.
  step_with (broadcast_shapes_scalar_r (shape mean)).
  assert (H3 : broadcast_shapes (shape r2) (shape (scalar tradeoff)) = Some [n])
    by (rewrite Hs3, Hm; apply broadcast_shapes_scalar_r).
  step_with H3.
  assert (H4 : broadcast_shapes (shape r3) (shape (ufunc ndtr r1)) = Some [n; n])
    by (cbn [ufunc shape]; rewrite Hs4, Hs2; apply bc_flat_square).
  step_with H4.
  assert (H5 : broadcast_shapes (shape std) (shape (ufunc norm_pdf r1))
               = Some [n; n])
    by (cbn [ufunc shape]; rewrite Hs, Hs2; apply bc_col_square).
  step_with H5.
  assert (H6 : broadcast_shapes (shape r4) (shape r5) = Some [n; n])
    by (rewrite Hs5, Hs6; apply broadcast_shapes_same).
  destruct (broadcast2_ok Rplus r4 r5 _ H6) as (ei & -> & Hse & Hwe).
  exists ei; repeat split; assumption.
Qed.

Lemma UCB_flat_mean (mean std : ndarray) (beta : R) (n : nat) :
  shape mean = [n] -> shape std = [n; 1%nat] ->
  exists ucb, UCB mean std beta = Ok ucb /\ shape ucb = [n; n] /\ wf ucb.
Proof.
  intros Hm Hs; unfold UCB, np_mul, np_add.
  assert (H1 : broadcast_shapes (shape (scalar beta)) (shape std) = Some [n; 1%nat])
    by (rewrite Hs; apply broadcast_shapes_scalar_l).
  step_with H1.
  assert (H2 : broadcast_shapes (shape mean) (shape r) = Some [n; n])
    by (rewrite Hm, Hs0; apply bc_flat_col).
  destruct (broadcast2_ok Rplus mean r _ H2) as (ucb & -> & Hsu & Hwu).
  exists ucb; repeat split; assumption.
Qed.

(** C1 (the program departs from it): for a surrogate returning a flat mean
    of length n = 2, each adapter returns a 2-by-2 matrix, four scores for a
    batch of two candidates, not a score vector of length 2. *)
Theorem flat_mean_adapters_return_square_matrix :
  (exists pi, optimizer_PI std_normal_cdf flat_surrogate two_candidates 0 = Ok pi
              /\ shape pi = [2%nat; 2%nat] /\ length (data pi) = 4%nat)
  /\ (exists ei, optimizer_EI std_normal_cdf std_normal_pdf flat_surrogate
                   two_candidates 0 = Ok ei
                 /\ shape ei = [2%nat; 2%nat] /\ length (data ei) = 4%nat)
  /\ optimizer_UCB flat_surrogate two_candidates 1
     = Ok (mk_array [2%nat; 2%nat] [1 + 1 * 1; 2 + 1 * 1; 1 + 1 * 1; 2 + 1 * 1]).
Proof.
  split; [| split].
  - destruct (PI_flat_mean std_normal_cdf (vector [1; 2])
                (reshape_col (vector [1; 1])) 0 0 2) as (pi & H & Hs & Hw);
      [reflexivity | reflexivity |].
    exists pi; split; [exact H | split; [exact Hs |]].
    unfold wf in Hw; rewrite Hw, Hs; reflexivity.
  - destruct (EI_flat_mean std_normal_cdf std_normal_pdf (vector [1; 2])
                (reshape_col (vector [1; 1])) 0 0 2) as (ei & H & Hs & Hw);
      [reflexivity | reflexivity |].
    exists ei; split; [exact H | split; [exact Hs |]].
    unfold wf in Hw; rewrite Hw, Hs; reflexivity.
  - reflexivity.
Qed.

(** C3, as the program has it: an adapter fails at once with numpy's shape
    error whenever the shape of the predicted mean cannot be broadcast
    against the (N,1) shape of the reshaped uncertainty. *)
Theorem adapters_raise_on_unbroadcastable_shapes
    (ndtr norm_pdf : R -> R) (optimizer : BayesianEstimator) (X mean std : ndarray)
    (tradeoff beta : R) :
  predict optimizer X = Ok (mean, std) ->
  broadcast_shapes (shape mean) (shape (reshape_col std)) = None ->
  optimizer_PI ndtr optimizer X tradeoff = Raise ValueError
  /\ optimizer_EI ndtr norm_pdf optimizer X tradeoff = Raise ValueError
  /\ optimizer_UCB optimizer X beta = Raise ValueError.
Proof.
  intros Hp Hbc.
  unfold optimizer_PI, optimizer_EI, optimizer_UCB; rewrite Hp; cbn [bind].
  unfold PI, EI, UCB, np_sub, np_div, np_mul, np_add.
  repeat split.
  - step_with (broadcast_shapes_scalar_r (shape mean)).
    assert (H1 : broadcast_shapes (shape r) (shape (scalar tradeoff))
                 = Some (shape mean))
      by (rewrite Hs; apply broadcast_shapes_scalar_r).
    step_with H1.
    rewrite broadcast2_raises by (rewrite Hs0; exact Hbc); reflexivity.
  - step_with (broadcast_shapes_scalar_r (shape mean)).
    assert (H1 : broadcast_shapes (shape r) (shape (scalar tradeoff))
                 = Some (shape mean))
      by (rewrite Hs; apply broadcast_shapes_scalar_r).
    step_with H1.
    rewrite broadcast2_raises by (rewrite Hs0; exact Hbc); reflexivity.
  - step_with (broadcast_shapes_scalar_l (shape (reshape_col std))).
    apply broadcast2_raises; rewrite Hs; exact Hbc.
Qed.

Lemma adapters_raise_witness :
  optimizer_PI std_normal_cdf short_std_surrogate three_candidates 0
  = Raise ValueError
  /\ optimizer_EI std_normal_cdf std_normal_pdf short_std_surrogate
       three_candidates 0 = Raise ValueError
  /\ optimizer_UCB short_std_surrogate three_candidates 1 = Raise ValueError.
Proof.
  apply (adapters_raise_on_unbroadcastable_shapes std_normal_cdf std_normal_pdf
           short_std_surrogate three_candidates
           (column [1; 2; / 2]) (vector [/ 10; / 10]) 0 1).
  - reflexivity.
  - reflexivity.
Defined.

(** C3 as stated fails: the mean has shape (3,1) and the reshaped
    uncertainty shape (1,1), one uncertainty for three candidates, and every
    adapter returns three scores instead of raising. *)
Lemma adapters_broadcast_mismatched_shapes :
  shape (column [1; 2; / 2]) <> shape (reshape_col (vector [/ 10]))
  /\ (exists pi,
        optimizer_PI std_normal_cdf single_std_surrogate three_candidates 0 = Ok pi
        /\ shape pi = [3%nat; 1%nat])
  /\ (exists ei,
        optimizer_EI std_normal_cdf std_normal_pdf single_std_surrogate
          three_candidates 0 = Ok ei
        /\ shape ei = [3%nat; 1%nat])
  /\ (exists ucb,
        optimizer_UCB single_std_surrogate three_candidates 1 = Ok ucb
        /\ shape ucb = [3%nat; 1%nat]).
Proof.
  split; [discriminate |].
  repeat split; eexists; split; reflexivity.
Qed.

(** ** The Selector's contract *)

Lemma insert_desc_perm (p : nat * R) (l : list (nat * R)) :
  Permutation (insert_desc p l) (p :: l).
Proof.
  induction l as [| q l IH]; simpl; [apply Permutation_refl |].
  destruct (Rle_dec (snd q) (snd p)); [apply Permutation_refl |].
  apply perm_trans with (q :: p :: l); [apply perm_skip, IH | apply perm_swap].
Qed.

Lemma sort_desc_perm (l : list (nat * R)) :
  Permutation (fold_right insert_desc [] l) l.
Proof.
  induction l as [| p l IH]; simpl; [apply perm_nil |].
  apply perm_trans with (p :: fold_right insert_desc [] l);
    [apply insert_desc_perm | apply perm_skip, IH].
Qed.

Lemma insert_desc_sorted (p : nat * R) (l : list (nat * R)) :
  StronglySorted (fun a b => snd b <= snd a) l ->
  StronglySorted (fun a b => snd b <= snd a) (insert_desc p l).
Proof.
  induction l as [| q l IH]; simpl; intros Hs.
  - constructor; constructor.
  - inversion Hs as [| ? ? Hl Hq]; subst.
    destruct (Rle_dec (snd q) (snd p)) as [Hle | Hnle].
    + constructor; [exact Hs |].
      constructor; [exact Hle |].
      apply Forall_forall; intros x Hx.
      rewrite Forall_forall in Hq; specialize (Hq x Hx); lra.
    + constructor; [apply IH, Hl |].
      apply Forall_forall; intros x Hx.
      apply (Permutation_in _ (insert_desc_perm p l)) in Hx.
      destruct Hx as [<- | Hx]; [lra |].
      rewrite Forall_forall in Hq; apply Hq, Hx.
Qed.

(** The ranking lists the scores in descending order. *)
Lemma sort_desc_sorted (l : list (nat * R)) :
  StronglySorted (fun a b => snd b <= snd a) (fold_right insert_desc [] l).
Proof.
  induction l as [| p l IH]; simpl; [constructor |].
  apply insert_desc_sorted, IH.
Qed.

Lemma map_fst_combine_seq (v : list R) (start : nat) :
  map fst (combine (seq start (length v)) v) = seq start (length v).
Proof.
  revert start; induction v as [| x v IH]; intros start; simpl; [reflexivity |].
  f_equal; apply IH.
Qed.

Lemma argsort_desc_perm (v : list R) :
  Permutation (argsort_desc v) (seq 0 (length v)).
Proof.
  unfold argsort_desc; rewrite <- (map_fst_combine_seq v 0) at 2.
  apply Permutation_map, sort_desc_perm.
Qed.

Lemma NoDup_firstn (A : Type) (k : nat) (l : list A) :
  NoDup l -> NoDup (firstn k l).
Proof.
  intros H; rewrite <- (firstn_skipn k l) in H.
  apply NoDup_app_remove_r in H; exact H.
Qed.

(** On a request within the number of entries the Selector returns that
    many distinct positions of the score buffer. *)
Lemma top_k_selector_ok (values : ndarray) (n_instances : nat) :
  (n_instances <= length (data values))%nat ->
  exists idx,
    top_k_selector values n_instances = Ok idx
    /\ length idx = n_instances
    /\ NoDup idx
    /\ Forall (fun i => (i < length (data values))%nat) idx.
Proof.
  intros Hk; unfold top_k_selector.
  destruct (Nat.leb_spec n_instances (length (data values))) as [_ | H]; [| lia].
  pose proof (argsort_desc_perm (data values)) as Hp.
  eexists; split; [reflexivity |]; repeat split.
  - rewrite length_firstn, (Permutation_length Hp), length_seq; lia.
  - apply NoDup_firstn, (Permutation_NoDup (Permutation_sym Hp)), seq_NoDup.
  - apply Forall_forall; intros i Hi.
    assert (Hin : In i (argsort_desc (data values))).
    { rewrite <- (firstn_skipn n_instances (argsort_desc (data values))).
      apply in_or_app; left; exact Hi. }
    apply (Permutation_in _ Hp), in_seq in Hin; lia.
Qed.

Lemma top_k_selector_raises (values : ndarray) (n_instances : nat) :
  (length (data values) < n_instances)%nat ->
  top_k_selector values n_instances = Raise PreconditionViolation.
Proof.
  intros Hk; unfold top_k_selector.
  destruct (Nat.leb_spec n_instances (length (data values))); [lia | reflexivity].
Qed.

Lemma hd_insert_desc (p : nat * R) (l : list (nat * R)) :
  hd_error (insert_desc p l) = better p (hd_error l).
Proof.
  destruct l as [| q l]; simpl; [reflexivity |].
  destruct (Rle_dec (snd q) (snd p)); reflexivity.
Qed.

Lemma hd_sort_desc (l : list (nat * R)) :
  hd_error (fold_right insert_desc [] l) = fold_right better None l.
Proof.
  induction l as [| p l IH]; simpl; [reflexivity |].
  rewrite hd_insert_desc, IH; reflexivity.
Qed.

Lemma top_1 (v : list R) (i : nat) (x : R) :
  fold_right better None (combine (seq 0 (length v)) v) = Some (i, x) ->
  firstn 1 (argsort_desc v) = [i].
Proof.
  rewrite <- hd_sort_desc; unfold argsort_desc.
  destruct (fold_right insert_desc [] (combine (seq 0 (length v)) v)) as [| p l];
    simpl; [discriminate |].
  intros [= ->]; reflexivity.
Qed.

Lemma better_none (p : nat * R) : better p None = Some p.
Proof. reflexivity. Qed.

Lemma better_wins (p q : nat * R) : snd q <= snd p -> better p (Some q) = Some p.
Proof. intros H; simpl; destruct (Rle_dec (snd q) (snd p)); [reflexivity | lra]. Qed.

Lemma better_loses (p q : nat * R) : snd p < snd q -> better p (Some q) = Some q.
Proof. intros H; simpl; destruct (Rle_dec (snd q) (snd p)); [lra | reflexivity]. Qed.

(** ** Row lookup *)

Lemma take_ok (X : ndarray) (n : nat) (s' : list nat) (idx : list nat) :
  shape X = n :: s' ->
  Forall (fun i => (i < n)%nat) idx ->
  take X idx = Ok (mk_array (length idx :: s') (flat_map (row X) idx)).
Proof.
  intros Hs Hidx; unfold take; rewrite Hs.
  replace (forallb (fun i => (i <? n)%nat) idx) with true; [reflexivity |].
  symmetry; apply forallb_forall; intros i Hi.
  rewrite Forall_forall in Hidx; apply Nat.ltb_lt, Hidx, Hi.
Qed.

Lemma take_inv (X rows : ndarray) (idx : list nat) :
  take X idx = Ok rows ->
  exists n s', shape X = n :: s'
               /\ Forall (fun i => (i < n)%nat) idx
               /\ rows = mk_array (length idx :: s') (flat_map (row X) idx).
Proof.
  unfold take; destruct (shape X) as [| n s']; [discriminate |].
  destruct (forallb (fun i => (i <? n)%nat) idx) eqn:Hf; [| discriminate].
  intros [= <-]; exists n, s'; repeat split.
  apply Forall_forall; intros i Hi.
  rewrite forallb_forall in Hf; apply Nat.ltb_lt, Hf, Hi.
Qed.

Lemma row_length (X : ndarray) (n : nat) (s' : list nat) (i : nat) :
  wf X -> shape X = n :: s' -> (i < n)%nat -> length (row X i) = size_of s'.
Proof.
  unfold wf, row, row_len; intros Hwf Hs Hi; rewrite Hs in *; simpl in *.
  rewrite length_firstn, length_skipn, Hwf; nia.
Qed.

Lemma block_of_flat_map (f : nat -> list R) (d : nat) (idx : list nat) (j : nat) :
  Forall (fun i => length (f i) = d) idx ->
  (j < length idx)%nat ->
  firstn d (skipn (j * d) (flat_map f idx)) = f (nth j idx 0%nat).
Proof.
  revert j; induction idx as [| i idx IH]; intros j Hall Hj; simpl in *; [lia |].
  inversion Hall as [| ? ? Hi Hrest]; subst.
  destruct j as [| j]; simpl.
  - rewrite firstn_app, Nat.sub_diag, firstn_all; simpl; apply app_nil_r.
  - rewrite skipn_app, skipn_all2 by lia; simpl.
    replace (length (f i) + j * length (f i) - length (f i))%nat
      with (j * length (f i))%nat by lia.
    apply IH; [exact Hrest | lia].
Qed.

(** ** The query strategies *)

Lemma max_PI_select (ndtr : R -> R) sel optimizer X tradeoff n_instances :
  max_PI ndtr sel optimizer X tradeoff n_instances
  = select sel X n_instances (optimizer_PI ndtr optimizer X tradeoff).
Proof. reflexivity. Qed.

Lemma max_EI_select (ndtr norm_pdf : R -> R) sel optimizer X tradeoff n_instances :
  max_EI ndtr norm_pdf sel optimizer X tradeoff n_instances
  = select sel X n_instances (optimizer_EI ndtr norm_pdf optimizer X tradeoff).
Proof. reflexivity. Qed.

Lemma max_UCB_select sel optimizer X beta n_instances :
  max_UCB sel optimizer X beta n_instances
  = select sel X n_instances (optimizer_UCB optimizer X beta).
Proof. reflexivity. Qed.

Lemma select_selected_rows sel X n_instances scores :
  wf X -> selected_rows sel X n_instances scores (select sel X n_instances scores).
Proof.
  intros Hwf query_idx rows; unfold select.
  destruct scores as [s | e]; cbn [bind]; [| discriminate].
  destruct (sel s n_instances) as [idx | e] eqn:Hsel; cbn [bind]; [| discriminate].
  destruct (take X idx) as [r | e] eqn:Htake; cbn [bind]; [| discriminate].
  intros [= <- <-].
  destruct (take_inv _ _ _ Htake) as (n & s' & Hs & Hidx & ->).
  split; [exists s; split; [reflexivity | exact Hsel] |].
  split; [exact Htake |].
  rewrite Hs; cbn [shape tl hd]; split; [reflexivity |].
  intros j Hj.
  assert (Hn : (nth j idx 0 < n)%nat).
  { rewrite Forall_forall in Hidx; apply Hidx, nth_In, Hj. }
  split; [exact Hn |].
  unfold row at 1, row_len; cbn [shape data tl].
  apply block_of_flat_map; [| exact Hj].
  apply Forall_forall; intros i Hi.
  rewrite Forall_forall in Hidx.
  apply (row_length X n s' i Hwf Hs), Hidx, Hi.
Qed.

(** C8: whenever a query strategy returns, its second component holds the
    rows of X at the returned indices, in the order of the index sequence the
    Selector produced for the adapter's scores. *)
Theorem strategies_return_the_selected_rows
    (ndtr norm_pdf : R -> R) (sel : ndarray -> nat -> result (list nat))
    (optimizer : BayesianEstimator) (X : ndarray) (tradeoff beta : R)
    (n_instances : nat) :
  wf X ->
  selected_rows sel X n_instances
    (optimizer_PI ndtr optimizer X tradeoff)
    (max_PI ndtr sel optimizer X tradeoff n_instances)
  /\ selected_rows sel X n_instances
       (optimizer_EI ndtr norm_pdf optimizer X tradeoff)
       (max_EI ndtr norm_pdf sel optimizer X tradeoff n_instances)
  /\ selected_rows sel X n_instances
       (optimizer_UCB optimizer X beta)
       (max_UCB sel optimizer X beta n_instances).
Proof.
  intros Hwf.
  rewrite max_PI_select, max_EI_select, max_UCB_select.
  split; [| split]; apply select_selected_rows; exact Hwf.
Qed.

Lemma column_surrogate_UCB :
  optimizer_UCB column_surrogate two_candidates 2
  = Ok (mk_array [2%nat; 1%nat] [0 + 2 * 1; 0 + 2 * 5]).
Proof. reflexivity. Qed.

Lemma column_surrogate_max_UCB :
  max_UCB top_k_selector column_surrogate two_candidates 2 1
  = Ok ([1%nat], mk_array [1%nat; 1%nat] [20]).
Proof.
  rewrite max_UCB_select, column_surrogate_UCB.
  unfold select, top_k_selector; cbn [bind data length Nat.leb].
  rewrite (top_1 _ 1 (0 + 2 * 5)); [reflexivity |].
  cbn [combine seq length fold_right].
  rewrite better_none, better_loses by (simpl; lra); reflexivity.
Qed.

Lemma strategies_return_rows_witness :
  (nth 0 [1%nat] 0 < hd 0 (shape two_candidates))%nat
  /\ row (mk_array [1%nat; 1%nat] [20]) 0 = row two_candidates 1.
Proof.
  destruct (strategies_return_the_selected_rows std_normal_cdf std_normal_pdf
              top_k_selector column_surrogate two_candidates 0 2 1 eq_refl)
    as (_ & _ & HU).
  destruct (HU [1%nat] (mk_array [1%nat; 1%nat] [20]) column_surrogate_max_UCB)
    as (_ & _ & _ & Hrows).
  exact (Hrows 0%nat (Nat.lt_0_succ 0)).
Defined.

(** A failure of the surrogate's prediction is passed on unchanged by every
    adapter and every strategy. *)
Theorem predict_failure_propagates
    (ndtr norm_pdf : R -> R) (sel : ndarray -> nat -> result (list nat))
    (optimizer : BayesianEstimator) (X : ndarray) (e : exn)
    (tradeoff beta : R) (n_instances : nat) :
  predict optimizer X = Raise e ->
  optimizer_PI ndtr optimizer X tradeoff = Raise e
  /\ optimizer_EI ndtr norm_pdf optimizer X tradeoff = Raise e
  /\ optimizer_UCB optimizer X beta = Raise e
  /\ max_PI ndtr sel optimizer X tradeoff n_instances = Raise e
  /\ max_EI ndtr norm_pdf sel optimizer X tradeoff n_instances = Raise e
  /\ max_UCB sel optimizer X beta n_instances = Raise e.
Proof.
  intros Hp.
  unfold max_PI, max_EI, max_UCB, optimizer_PI, optimizer_EI, optimizer_UCB.
  rewrite Hp; repeat split; reflexivity.
Qed.

Lemma predict_failure_witness :
  optimizer_PI std_normal_cdf unfit_surrogate two_candidates 0
  = Raise UpstreamFailure
  /\ optimizer_EI std_normal_cdf std_normal_pdf unfit_surrogate two_candidates 0
     = Raise UpstreamFailure
  /\ optimizer_UCB unfit_surrogate two_candidates 1 = Raise UpstreamFailure
  /\ max_PI std_normal_cdf top_k_selector unfit_surrogate two_candidates 0 1
     = Raise UpstreamFailure
  /\ max_EI std_normal_cdf std_normal_pdf top_k_selector unfit_surrogate
       two_candidates 0 1 = Raise UpstreamFailure
  /\ max_UCB top_k_selector unfit_surrogate two_candidates 1 1
     = Raise UpstreamFailure.
Proof.
  apply (predict_failure_propagates std_normal_cdf std_normal_pdf top_k_selector
           unfit_surrogate two_candidates UpstreamFailure 0 1 1).
  reflexivity.
Defined.

(** ** One mean and one uncertainty per candidate *)

Lemma reshape_col_flat (std : ndarray) (n : nat) :
  wf std -> shape std = [n] ->
  wf (reshape_col std) /\ shape (reshape_col std) = [n; 1%nat].
Proof.
  unfold wf, reshape_col; intros Hwf Hs; rewrite Hs in *; cbn [shape data] in *.
  simpl in *; rewrite !Nat.mul_1_r in *; split; [exact Hwf | reflexivity].
Qed.

Lemma optimizer_PI_column (ndtr : R -> R) optimizer X mean std (n : nat) tradeoff :
  predict optimizer X = Ok (mean, std) ->
  wf mean -> shape mean = [n; 1%nat] -> wf std -> shape std = [n] ->
  optimizer_PI ndtr optimizer X tradeoff
  = Ok (mk_array [n; 1%nat]
          (zip_with (fun m s => ndtr ((m - y_max optimizer - tradeoff) / s))
             (data mean) (data std))).
Proof.
  intros Hp Hm Hsm Hs Hss.
  destruct (reshape_col_flat std n Hs Hss) as (Hw & Hsh).
  unfold optimizer_PI; rewrite Hp; cbn [bind].
  rewrite PI_same_shape; [rewrite Hsm; reflexivity | exact Hm | exact Hw |].
  rewrite Hsm, Hsh; reflexivity.
Qed.

Lemma optimizer_EI_column (ndtr norm_pdf : R -> R) optimizer X mean std (n : nat)
    tradeoff :
  predict optimizer X = Ok (mean, std) ->
  wf mean -> shape mean = [n; 1%nat] -> wf std -> shape std = [n] ->
  optimizer_EI ndtr norm_pdf optimizer X tradeoff
  = Ok (mk_array [n; 1%nat]
          (zip_with
             (fun m s =>
                (m - y_max optimizer - tradeoff)
                * ndtr ((m - y_max optimizer - tradeoff) / s)
                + s * norm_pdf ((m - y_max optimizer - tradeoff) / s))
             (data mean) (data std))).
Proof.
  intros Hp Hm Hsm Hs Hss.
  destruct (reshape_col_flat std n Hs Hss) as (Hw & Hsh).
  unfold optimizer_EI; rewrite Hp; cbn [bind].
  rewrite EI_same_shape; [rewrite Hsm; reflexivity | exact Hm | exact Hw |].
  rewrite Hsm, Hsh; reflexivity.
Qed.

Lemma column_scores_length (f : R -> R -> R) (mean std : ndarray) (n : nat) :
  wf mean -> shape mean = [n; 1%nat] -> wf std -> shape std = [n] ->
  length (zip_with f (data mean) (data std)) = n.
Proof.
  unfold wf; intros Hm Hsm Hs Hss; rewrite Hsm in Hm; rewrite Hss in Hs.
  simpl in Hm, Hs; rewrite zip_with_length; lia.
Qed.

(** With n scores for a batch of n rows, the Selector modelled from the
    spec yields a selection of [n_instances] distinct rows of the batch. *)
Lemma select_top_k (X scores : ndarray) (n : nat) (s' : list nat)
    (n_instances : nat) :
  length (data scores) = n -> shape X = n :: s' -> (n_instances <= n)%nat ->
  exists query_idx rows,
    select top_k_selector X n_instances (Ok scores) = Ok (query_idx, rows)
    /\ length query_idx = n_instances
    /\ NoDup query_idx
    /\ Forall (fun i => (i < n)%nat) query_idx.
Proof.
  intros Hlen HX Hk; unfold select; cbn [bind].
  destruct (top_k_selector_ok scores n_instances) as (idx & -> & Hl & Hnd & Hr);
    [lia |].
  rewrite Hlen in Hr; cbn [bind].
  rewrite (take_ok X n s' idx HX Hr); cbn [bind].
  exists idx; eexists; repeat split; assumption.
Qed.

(** C2, as the program has it: an exact zero in the uncertainty sequence
    raises nothing.  For a surrogate answering one mean (as a column) and one
    uncertainty per candidate, the PI and EI adapters return their n scores,
    and the strategies hand them to the Selector and look the selected rows
    up: no check for a zero uncertainty is made. *)
Theorem zero_std_raises_nothing
    (ndtr norm_pdf : R -> R) (sel : ndarray -> nat -> result (list nat))
    (optimizer : BayesianEstimator) (X mean std : ndarray) (n : nat)
    (tradeoff : R) (n_instances : nat) :
  predict optimizer X = Ok (mean, std) ->
  wf mean -> shape mean = [n; 1%nat] -> wf std -> shape std = [n] ->
  In 0 (data std) ->
  (exists pi,
     optimizer_PI ndtr optimizer X tradeoff = Ok pi
     /\ shape pi = [n; 1%nat] /\ length (data pi) = n
     /\ max_PI ndtr sel optimizer X tradeoff n_instances
        = (query_idx <- sel pi n_instances;;
           rows <- take X query_idx;;
           Ok (query_idx, rows)))
  /\ (exists ei,
        optimizer_EI ndtr norm_pdf optimizer X tradeoff = Ok ei
        /\ shape ei = [n; 1%nat] /\ length (data ei) = n
        /\ max_EI ndtr norm_pdf sel optimizer X tradeoff n_instances
           = (query_idx <- sel ei n_instances;;
              rows <- take X query_idx;;
              Ok (query_idx, rows))).
Proof.
  intros Hp Hm Hsm Hs Hss _; split.
  - eexists; split; [apply (optimizer_PI_column ndtr _ _ _ _ n _ Hp Hm Hsm Hs Hss) |].
    cbn [shape data]; repeat split.
    + apply (column_scores_length _ mean std n); assumption.
    + unfold max_PI.
      rewrite (optimizer_PI_column ndtr _ _ _ _ n _ Hp Hm Hsm Hs Hss); reflexivity.
  - eexists; split;
      [apply (optimizer_EI_column ndtr norm_pdf _ _ _ _ n _ Hp Hm Hsm Hs Hss) |].
    cbn [shape data]; repeat split.
    + apply (column_scores_length _ mean std n); assumption.
    + unfold max_EI.
      rewrite (optimizer_EI_column ndtr norm_pdf _ _ _ _ n _ Hp Hm Hsm Hs Hss);
        reflexivity.
Qed.

Lemma zero_std_witness :
  (exists pi,
     optimizer_PI std_normal_cdf zero_std_surrogate two_candidates 0 = Ok pi
     /\ shape pi = [2%nat; 1%nat] /\ length (data pi) = 2%nat
     /\ max_PI std_normal_cdf top_k_selector zero_std_surrogate two_candidates 0 1
        = (query_idx <- top_k_selector pi 1;;
           rows <- take two_candidates query_idx;;
           Ok (query_idx, rows)))
  /\ (exists ei,
        optimizer_EI std_normal_cdf std_normal_pdf zero_std_surrogate
          two_candidates 0 = Ok ei
        /\ shape ei = [2%nat; 1%nat] /\ length (data ei) = 2%nat
        /\ max_EI std_normal_cdf std_normal_pdf top_k_selector zero_std_surrogate
             two_candidates 0 1
           = (query_idx <- top_k_selector ei 1;;
              rows <- take two_candidates query_idx;;
              Ok (query_idx, rows))).
Proof.
  apply (zero_std_raises_nothing std_normal_cdf std_normal_pdf top_k_selector
           zero_std_surrogate two_candidates (column [1; 2]) (vector [0; 1])
           2 0 1).
  - reflexivity.
  - reflexivity.
  - reflexivity.
  - reflexivity.
  - reflexivity.
  - left; reflexivity.
Defined.

(** C2 as stated fails: the uncertainty sequence [0; 1] contains an exact
    zero, and max_PI and max_EI both return a selection of one candidate
    instead of raising. *)
Lemma zero_std_strategies_return :
  In 0 (data (vector [0; 1]))
  /\ (exists query_idx rows,
        max_PI std_normal_cdf top_k_selector zero_std_surrogate two_candidates 0 1
        = Ok (query_idx, rows) /\ length query_idx = 1%nat)
  /\ (exists query_idx rows,
        max_EI std_normal_cdf std_normal_pdf top_k_selector zero_std_surrogate
          two_candidates 0 1
        = Ok (query_idx, rows) /\ length query_idx = 1%nat).
Proof.
  split; [left; reflexivity |]; split.
  - rewrite max_PI_select.
    rewrite (optimizer_PI_column std_normal_cdf zero_std_surrogate two_candidates
               (column [1; 2]) (vector [0; 1]) 2 0) by reflexivity.
    destruct (select_top_k two_candidates
                (mk_array [2%nat; 1%nat]
                   (zip_with
                      (fun m s =>
                         std_normal_cdf ((m - y_max zero_std_surrogate - 0) / s))
                      (data (column [1; 2])) (data (vector [0; 1]))))
                2 [1%nat] 1)
      as (idx & rows & H & Hl & _); [reflexivity | reflexivity | lia |].
    exists idx, rows; split; assumption.
  - rewrite max_EI_select.
    rewrite (optimizer_EI_column std_normal_cdf std_normal_pdf zero_std_surrogate
               two_candidates (column [1; 2]) (vector [0; 1]) 2 0) by reflexivity.
    destruct (select_top_k two_candidates
                (mk_array [2%nat; 1%nat]
                   (zip_with
                      (fun m s =>
                         (m - y_max zero_std_surrogate - 0)
                         * std_normal_cdf ((m - y_max zero_std_surrogate - 0) / s)
                         + s * std_normal_pdf
                                 ((m - y_max zero_std_surrogate - 0) / s))
                      (data (column [1; 2])) (data (vector [0; 1]))))
                2 [1%nat] 1)
      as (idx & rows & H & Hl & _); [reflexivity | reflexivity | lia |].
    exists idx, rows; split; assumption.
Qed.

Lemma broadcast2_mk_scalar_l (f : R -> R -> R) (s : list nat) (l : list R) (c : R) :
  length l = size_of s ->
  broadcast2 f (scalar c) (mk_array s l)
  = Ok (mk_array s (map (fun x => f c x) l)).
Proof. intros H; apply (broadcast2_scalar_l f (mk_array s l) c H). Qed.

Lemma zip_with_map_r (f : R -> R -> R) (g : R -> R) (l1 l2 : list R) :
  zip_with f l1 (map g l2) = zip_with (fun x y => f x (g y)) l1 l2.
Proof.
  unfold zip_with; revert l2; induction l1 as [| x l1 IH]; intros [| y l2];
    simpl; try reflexivity.
  f_equal; apply IH.
Qed.

Lemma UCB_same_shape (mean std : ndarray) (beta : R) :
  wf mean -> wf std -> shape mean = shape std ->
  UCB mean std beta
  = Ok (mk_array (shape mean)
          (zip_with (fun m s => m + beta * s) (data mean) (data std))).
Proof.
  destruct mean as [s lm], std as [s' ls]; unfold wf; cbn [shape data].
  intros Hm Hs <-.
  unfold UCB, np_mul, np_add.
  rewrite broadcast2_mk_scalar_l by solve_len; cbn [bind].
  rewrite broadcast2_mk by solve_len.
  rewrite zip_with_map_r; reflexivity.
Qed.

Lemma optimizer_UCB_column optimizer X mean std (n : nat) beta :
  predict optimizer X = Ok (mean, std) ->
  wf mean -> shape mean = [n; 1%nat] -> wf std -> shape std = [n] ->
  optimizer_UCB optimizer X beta
  = Ok (mk_array [n; 1%nat]
          (zip_with (fun m s => m + beta * s) (data mean) (data std))).
Proof.
  intros Hp Hm Hsm Hs Hss.
  destruct (reshape_col_flat std n Hs Hss) as (Hw & Hsh).
  unfold optimizer_UCB; rewrite Hp; cbn [bind].
  rewrite UCB_same_shape; [rewrite Hsm; reflexivity | exact Hm | exact Hw |].
  rewrite Hsm, Hsh; reflexivity.
Qed.

(** When the surrogate answers one mean (as a column) and one uncertainty
    per candidate, every strategy returns exactly [n_instances] distinct
    positions of the batch. *)
Theorem column_mean_strategies_select
    (ndtr norm_pdf : R -> R) (optimizer : BayesianEstimator)
    (X mean std : ndarray) (n : nat) (s' : list nat) (tradeoff beta : R)
    (n_instances : nat) :
  predict optimizer X = Ok (mean, std) ->
  wf mean -> shape mean = [n; 1%nat] -> wf std -> shape std = [n] ->
  shape X = n :: s' -> (n_instances <= n)%nat ->
  (exists query_idx rows,
     max_PI ndtr top_k_selector optimizer X tradeoff n_instances
     = Ok (query_idx, rows)
     /\ length query_idx = n_instances /\ NoDup query_idx
     /\ Forall (fun i => (i < n)%nat) query_idx)
  /\ (exists query_idx rows,
        max_EI ndtr norm_pdf top_k_selector optimizer X tradeoff n_instances
        = Ok (query_idx, rows)
        /\ length query_idx = n_instances /\ NoDup query_idx
        /\ Forall (fun i => (i < n)%nat) query_idx)
  /\ (exists query_idx rows,
        max_UCB top_k_selector optimizer X beta n_instances
        = Ok (query_idx, rows)
        /\ length query_idx = n_instances /\ NoDup query_idx
        /\ Forall (fun i => (i < n)%nat) query_idx).
Proof.
  intros Hp Hm Hsm Hs Hss HX Hk.
  rewrite max_PI_select, max_EI_select, max_UCB_select.
  rewrite (optimizer_PI_column ndtr _ _ _ _ n _ Hp Hm Hsm Hs Hss).
  rewrite (optimizer_EI_column ndtr norm_pdf _ _ _ _ n _ Hp Hm Hsm Hs Hss).
  rewrite (optimizer_UCB_column _ _ _ _ n _ Hp Hm Hsm Hs Hss).
  split; [| split]; apply (select_top_k X _ n s' n_instances); try assumption;
    cbn [data]; apply (column_scores_length _ mean std n); assumption.
Qed.

Lemma column_mean_strategies_witness :
  (exists query_idx rows,
     max_PI std_normal_cdf top_k_selector column_surrogate two_candidates 0 2
     = Ok (query_idx, rows)
     /\ length query_idx = 2%nat /\ NoDup query_idx
     /\ Forall (fun i => (i < 2)%nat) query_idx)
  /\ (exists query_idx rows,
        max_EI std_normal_cdf std_normal_pdf top_k_selector column_surrogate
          two_candidates 0 2
        = Ok (query_idx, rows)
        /\ length query_idx = 2%nat /\ NoDup query_idx
        /\ Forall (fun i => (i < 2)%nat) query_idx)
  /\ (exists query_idx rows,
        max_UCB top_k_selector column_surrogate two_candidates 2 2
        = Ok (query_idx, rows)
        /\ length query_idx = 2%nat /\ NoDup query_idx
        /\ Forall (fun i => (i < 2)%nat) query_idx).
Proof.
  apply (column_mean_strategies_select std_normal_cdf std_normal_pdf
           column_surrogate two_candidates (column [0; 0]) (vector [1; 5])
           2 [1%nat] 0 2 2).
  - reflexivity.
  - reflexivity.
  - reflexivity.
  - reflexivity.
  - reflexivity.
  - reflexivity.
  - apply Nat.le_refl.
Defined.

(** C7 (the program departs from it): with a flat mean for a batch of two
    candidates the UCB adapter hands the Selector a 2-by-2 score matrix; its
    best entry is entry 2, which is no row of the batch, and the strategy
    fails with IndexError instead of returning one index below 2. *)
Theorem flat_mean_strategy_selects_outside_the_batch :
  optimizer_UCB flat_ucb_surrogate two_candidates 2
  = Ok (mk_array [2%nat; 2%nat] [0 + 2 * 1; 0 + 2 * 1; 0 + 2 * 5; 0 + 2 * 5])
  /\ top_k_selector
       (mk_array [2%nat; 2%nat] [0 + 2 * 1; 0 + 2 * 1; 0 + 2 * 5; 0 + 2 * 5]) 1
     = Ok [2%nat]
  /\ max_UCB top_k_selector flat_ucb_surrogate two_candidates 2 1
     = Raise IndexError.
Proof.
  assert (Hsel : top_k_selector
                   (mk_array [2%nat; 2%nat]
                      [0 + 2 * 1; 0 + 2 * 1; 0 + 2 * 5; 0 + 2 * 5]) 1
                 = Ok [2%nat]).
  { unfold top_k_selector; cbn [data length Nat.leb].
    rewrite (top_1 _ 2 (0 + 2 * 5)); [reflexivity |].
    cbn [combine seq length fold_right].
    rewrite better_none.
    rewrite better_wins by (simpl; lra).
    rewrite better_loses by (simpl; lra).
    rewrite better_loses by (simpl; lra).
    reflexivity. }
  split; [reflexivity | split; [exact Hsel |]].
  rewrite max_UCB_select.
  change (optimizer_UCB flat_ucb_surrogate two_candidates 2)
    with (Ok (mk_array [2%nat; 2%nat]
                [0 + 2 * 1; 0 + 2 * 1; 0 + 2 * 5; 0 + 2 * 5])).
  unfold select; cbn [bind]; rewrite Hsel; reflexivity.
Qed.

(** ** The expected-improvement scenario *)

Lemma scenario_column_scores (ndtr norm_pdf : R -> R) (X : ndarray) :
  optimizer_EI ndtr norm_pdf scenario_column X 0
  = Ok (mk_array [3%nat; 1%nat]
          [scenario_score ndtr norm_pdf 1; scenario_score ndtr norm_pdf 2;
           scenario_score ndtr norm_pdf (/ 2)]).
Proof. reflexivity. Qed.

Lemma pdf_even (ndtr norm_pdf : R -> R) (z : R) :
  standard_normal ndtr norm_pdf -> norm_pdf (- z) = norm_pdf z.
Proof.
  intros N; rewrite (pdf_shape _ _ N (- z)), (pdf_shape _ _ N z).
  do 3 f_equal; ring.
Qed.

Lemma pdf_decreasing (ndtr norm_pdf : R -> R) (x y : R) :
  standard_normal ndtr norm_pdf -> 0 <= x < y -> norm_pdf y < norm_pdf x.
Proof.
  intros N Hxy; rewrite (pdf_shape _ _ N y), (pdf_shape _ _ N x).
  apply Rmult_lt_compat_l; [apply (pdf0_pos _ _ N) |].
  apply exp_increasing; nra.
Qed.

(** The candidate with mean 2.0 has the strictly largest score. *)
Lemma scenario_best (ndtr norm_pdf : R -> R) :
  standard_normal ndtr norm_pdf ->
  scenario_score ndtr norm_pdf 1 < scenario_score ndtr norm_pdf 2
  /\ scenario_score ndtr norm_pdf (/ 2) < scenario_score ndtr norm_pdf 2.
Proof.
  intros N; unfold scenario_score.
  replace ((1 - 3 / 2 - 0) / / 10) with (Ropp 5) by field.
  replace ((2 - 3 / 2 - 0) / / 10) with 5 by field.
  replace ((/ 2 - 3 / 2 - 0) / / 10) with (Ropp 10) by field.
  rewrite !(pdf_even ndtr norm_pdf _ N).
  pose proof (cdf_pos _ _ N 5); pose proof (cdf_pos _ _ N (Ropp 5)).
  pose proof (cdf_pos _ _ N (Ropp 10)).
  pose proof (pdf_decreasing ndtr norm_pdf 5 10 N ltac:(lra)).
  split; lra.
Qed.

(** C9: with mean = [1.0, 2.0, 0.5] (one mean per candidate, as a column),
    std = [0.1, 0.1, 0.1], max_val = 1.5, tradeoff = 0 and n_instances = 1,
    the EI adapter returns three scores of which the score of candidate 1 is
    strictly the largest, and max_EI returns the single index 1 with row 1
    of the batch. *)
Theorem max_EI_scenario_selects_index_1
    (ndtr norm_pdf : R -> R) (X : ndarray) (d : nat) :
  standard_normal ndtr norm_pdf ->
  shape X = [3%nat; d] ->
  exists ei,
    optimizer_EI ndtr norm_pdf scenario_column X 0 = Ok ei
    /\ shape ei = [3%nat; 1%nat]
    /\ length (data ei) = 3%nat
    /\ nth 0 (data ei) 0 < nth 1 (data ei) 0
    /\ nth 2 (data ei) 0 < nth 1 (data ei) 0
    /\ max_EI ndtr norm_pdf top_k_selector scenario_column X 0 1
       = Ok ([1%nat], mk_array [1%nat; d] (row X 1)).
Proof.
  intros N HX.
  destruct (scenario_best ndtr norm_pdf N) as (H1 & H2).
  assert (Htake : take X [1%nat] = Ok (mk_array [1%nat; d] (row X 1))).
  { rewrite (take_ok X 3 [d] [1%nat] HX) by (repeat constructor).
    cbn [flat_map length]; rewrite app_nil_r; reflexivity. }
  eexists; split; [apply scenario_column_scores |].
  cbn [shape data length nth].
  repeat (split; [first [reflexivity | assumption] |]).
  rewrite max_EI_select, scenario_column_scores.
  unfold select, top_k_selector; cbn [bind data length Nat.leb].
  rewrite (top_1 _ 1 (scenario_score ndtr norm_pdf 2)).
  - cbn [bind]; rewrite Htake; reflexivity.
  - cbn [combine seq length fold_right].
    rewrite better_none.
    rewrite better_wins by (cbn [snd]; lra).
    rewrite better_loses by (cbn [snd]; lra).
    reflexivity.
Qed.

Lemma max_EI_scenario_witness :
  exists ei,
    optimizer_EI std_normal_cdf std_normal_pdf scenario_column
      three_candidates 0 = Ok ei
    /\ shape ei = [3%nat; 1%nat]
    /\ length (data ei) = 3%nat
    /\ nth 0 (data ei) 0 < nth 1 (data ei) 0
    /\ nth 2 (data ei) 0 < nth 1 (data ei) 0
    /\ max_EI std_normal_cdf std_normal_pdf top_k_selector scenario_column
         three_candidates 0 1
       = Ok ([1%nat], mk_array [1%nat; 1%nat] (row three_candidates 1)).
Proof.
  apply (max_EI_scenario_selects_index_1 std_normal_cdf std_normal_pdf
           three_candidates 1).
  - exact std_normal_contract.
  - reflexivity.
Defined.

(** ** More consequences of the contract *)

Section ExpectedImprovement.

Variables ndtr norm_pdf : R -> R.
Hypothesis N : standard_normal ndtr norm_pdf.

Lemma cdf_symmetric (x : R) : ndtr (- x) = 1 - ndtr x.
Proof.
  set (S := (ndtr + comp ndtr (- id))%F).
  assert (HS : forall t, derivable_pt_lim S t 0).
  { intros t; unfold S.
    replace 0 with (norm_pdf t + norm_pdf (- t) * -1)
      by (rewrite (pdf_even ndtr norm_pdf t N); ring).
    apply derivable_pt_lim_plus; [apply (cdf_deriv _ _ N) |].
    apply derivable_pt_lim_comp.
    - apply derivable_pt_lim_opp, derivable_pt_lim_id.
    - apply (cdf_deriv _ _ N). }
  pose (dS := (fun t => exist _ 0 (HS t)) : derivable S).
  assert (Hc : constant S)
    by (apply (null_derivative_1 S dS); intros t; reflexivity).
  assert (H1 : S x = 1).
  { apply Rminus_diag_uniq, cond_eq; intros eps Heps.
    destruct (cdf_at_minus_infinity _ _ N (eps / 2)) as [M1 H1]; [lra |].
    destruct (cdf_at_plus_infinity _ _ N (eps / 2)) as [M2 H2]; [lra |].
    set (y := Rmax (- M1) M2 + 1).
    assert (Hy1 : - y < M1) by (unfold y; pose proof (Rmax_l (- M1) M2); lra).
    assert (Hy2 : M2 < y) by (unfold y; pose proof (Rmax_r (- M1) M2); lra).
    rewrite (Hc x y); unfold S, plus_fct, comp, opp_fct, id.
    apply H1, Rabs_def2 in Hy1; apply H2, Rabs_def2 in Hy2.
    apply Rabs_def1; lra. }
  unfold S, plus_fct, comp, opp_fct, id in H1; lra.
Qed.

Lemma cdf_at_zero : ndtr 0 = / 2.
Proof.
  pose proof (cdf_symmetric 0) as H; rewrite Ropp_0 in H; lra.
Qed.

Lemma unit_improvement_deriv (z : R) :
  derivable_pt_lim (unit_improvement ndtr norm_pdf) z (ndtr z).
Proof.
  unfold unit_improvement.
  replace (ndtr z) with ((1 * ndtr z + id z * norm_pdf z) + - z * norm_pdf z)
    by (unfold id; ring).
  apply (derivable_pt_lim_plus (id * ndtr)%F norm_pdf).
  - apply derivable_pt_lim_mult; [apply derivable_pt_lim_id | apply (cdf_deriv _ _ N)].
  - apply (pdf_deriv _ _ N).
Qed.

Lemma unit_improvement_incr (x y : R) :
  x <= y -> unit_improvement ndtr norm_pdf x <= unit_improvement ndtr norm_pdf y.
Proof.
  intros [Hxy | ->]; [| lra].
  destruct (MVT_cor2 (unit_improvement ndtr norm_pdf) ndtr x y Hxy)
    as (c & Hc & _); [intros c _; apply unit_improvement_deriv |].
  pose proof (cdf_pos _ _ N c); nra.
Qed.

Lemma unit_improvement_nonneg (z : R) : 0 <= unit_improvement ndtr norm_pdf z.
Proof. apply (mills _ _ N). Qed.

Lemma unit_improvement_reflect (z : R) :
  unit_improvement ndtr norm_pdf z - z = unit_improvement ndtr norm_pdf (- z).
Proof.
  unfold unit_improvement.
  rewrite cdf_symmetric, (pdf_even ndtr norm_pdf z N); ring.
Qed.

Lemma unit_improvement_at_zero : unit_improvement ndtr norm_pdf 0 = norm_pdf 0.
Proof. unfold unit_improvement; ring. Qed.

(** The improvement of a standardised margin lies between its positive part
    and its positive part plus the density at 0. *)
Lemma unit_improvement_bounds (z : R) :
  Rmax 0 z <= unit_improvement ndtr norm_pdf z <= Rmax 0 z + norm_pdf 0.
Proof.
  pose proof (unit_improvement_nonneg z) as H0.
  pose proof (unit_improvement_nonneg (- z)) as H1.
  pose proof (unit_improvement_reflect z) as Hr.
  pose proof unit_improvement_at_zero as Hz.
  split.
  - apply Rmax_lub; lra.
  - destruct (Rle_dec z 0) as [Hle | Hgt].
    + pose proof (unit_improvement_incr z 0 Hle).
      pose proof (Rmax_l 0 z); lra.
    + pose proof (unit_improvement_incr (- z) 0 ltac:(lra)).
      pose proof (Rmax_r 0 z); lra.
Qed.

End ExpectedImprovement.

(** ** The formulas, candidate by candidate *)

Lemma zip_with_nth (f : R -> R -> R) (l1 l2 : list R) (i : nat) :
  length l1 = length l2 -> (i < length l1)%nat ->
  nth i (zip_with f l1 l2) 0 = f (nth i l1 0) (nth i l2 0).
Proof.
  unfold zip_with; revert l2 i; induction l1 as [| x l1 IH];
    intros [| y l2] i Hlen Hi; simpl in *; try lia.
  destruct i as [| i]; [reflexivity | apply IH; lia].
Qed.

Lemma same_shape_length (a b : ndarray) :
  wf a -> wf b -> shape a = shape b -> length (data a) = length (data b).
Proof. unfold wf; intros Ha Hb Hs; rewrite Ha, Hb, Hs; reflexivity. Qed.

Lemma Forall_nth_pos (l : list R) (i : nat) :
  Forall (fun s => 0 < s) l -> (i < length l)%nat -> 0 < nth i l 0.
Proof.
  intros H Hi; rewrite Forall_forall in H; apply H, nth_In, Hi.
Qed.

(** The expected improvement of one candidate is its uncertainty times the
    unit improvement of its standardised margin. *)
Lemma improvement_factor (ndtr norm_pdf : R -> R) (m s : R) :
  0 < s ->
  m * ndtr (m / s) + s * norm_pdf (m / s)
  = s * unit_improvement ndtr norm_pdf (m / s).
Proof. intros Hs; unfold unit_improvement; field; lra. Qed.

(** EI lies between the plain improvement max(margin, 0) and that
    improvement plus std * phi(0), for every tradeoff. *)
Theorem EI_between_improvement_bounds
    (ndtr norm_pdf : R -> R) (mean std : ndarray) (max_val tradeoff : R) :
  standard_normal ndtr norm_pdf ->
  wf mean -> wf std -> shape mean = shape std ->
  Forall (fun s => 0 < s) (data std) ->
  exists scores,
    EI ndtr norm_pdf mean std max_val tradeoff = Ok scores
    /\ shape scores = shape mean
    /\ forall i, (i < length (data mean))%nat ->
         Rmax 0 (nth i (data mean) 0 - max_val - tradeoff)
         <= nth i (data scores) 0
         <= Rmax 0 (nth i (data mean) 0 - max_val - tradeoff)
            + nth i (data std) 0 * norm_pdf 0.
Proof.
  intros N Hm Hs Hsh Hpos.
  pose proof (same_shape_length mean std Hm Hs Hsh) as Hlen.
  eexists; split; [apply EI_same_shape; assumption |].
  cbn [shape data]; split; [reflexivity |]; intros i Hi.
  rewrite zip_with_nth by assumption.
  set (m := nth i (data mean) 0 - max_val - tradeoff).
  set (s := nth i (data std) 0).
  assert (Hs0 : 0 < s) by (apply Forall_nth_pos; [exact Hpos | lia]).
  rewrite improvement_factor by exact Hs0.
  pose proof (unit_improvement_bounds ndtr norm_pdf N (m / s)) as [Hlo Hhi].
  assert (Hmax : Rmax 0 m = s * Rmax 0 (m / s)).
  { rewrite <- (Rmult_0_r s) at 1.
    replace m with (s * (m / s)) at 1 by (field; lra).
    apply RmaxRmult; lra. }
  rewrite Hmax; split; nra.
Qed.

Lemma EI_bounds_witness :
  exists scores,
    EI std_normal_cdf std_normal_pdf (vector [1; 2]) (vector [1; / 2]) (3 / 2)
      (/ 10) = Ok scores
    /\ shape scores = [2%nat]
    /\ forall i, (i < 2)%nat ->
         Rmax 0 (nth i [1; 2] 0 - 3 / 2 - / 10)
         <= nth i (data scores) 0
         <= Rmax 0 (nth i [1; 2] 0 - 3 / 2 - / 10)
            + nth i [1; / 2] 0 * std_normal_pdf 0.
Proof.
  apply (EI_between_improvement_bounds std_normal_cdf std_normal_pdf
           (vector [1; 2]) (vector [1; / 2]) (3 / 2) (/ 10)).
  - exact std_normal_contract.
  - reflexivity.
  - reflexivity.
  - reflexivity.
  - repeat constructor; simpl; lra.
Defined.

Lemma cdf_monotone (ndtr norm_pdf : R -> R) (x y : R) :
  standard_normal ndtr norm_pdf -> x <= y -> ndtr x <= ndtr y.
Proof.
  intros N [Hxy | ->]; [left; apply (cdf_incr _ _ N), Hxy | lra].
Qed.

(** More uncertainty never lowers the expected improvement of a margin. *)
Lemma improvement_incr_in_std (ndtr norm_pdf : R -> R) (m s1 s2 : R) :
  standard_normal ndtr norm_pdf ->
  0 < s1 -> s1 <= s2 ->
  s1 * unit_improvement ndtr norm_pdf (m / s1)
  <= s2 * unit_improvement ndtr norm_pdf (m / s2).
Proof.
  intros N Hs1 [Hlt | ->]; [| lra].
  set (h := (id * comp (unit_improvement ndtr norm_pdf) (fct_cte m / id))%F).
  destruct (MVT_cor2 h (fun s => norm_pdf (m / s)) s1 s2 Hlt) as (c & Hc & Hin).
  - intros c Hc.
    assert (Hc0 : c <> 0) by lra.
    replace (norm_pdf (m / c))
      with (1 * comp (unit_improvement ndtr norm_pdf) (fct_cte m / id)%F c
            + id c * (ndtr ((fct_cte m / id)%F c)
                      * ((0 * id c - 1 * fct_cte m c) / Rsqr (id c)))).
    + apply derivable_pt_lim_mult; [apply derivable_pt_lim_id |].
      apply derivable_pt_lim_comp.
      * apply derivable_pt_lim_div;
          [apply derivable_pt_lim_const | apply derivable_pt_lim_id | exact Hc0].
      * apply (unit_improvement_deriv ndtr norm_pdf N).
    + unfold comp, div_fct, fct_cte, id, unit_improvement, Rsqr.
      field; exact Hc0.
  - unfold h, mult_fct, comp, div_fct, fct_cte, id in Hc.
    pose proof (pdf_pos _ _ N (m / c)); nra.
Qed.

(** PI never decreases when the margin mean - max_val - tradeoff grows: it
    is monotone in mean and antitone in max_val and in tradeoff. *)
Theorem PI_monotone_in_margin
    (ndtr norm_pdf : R -> R) (mean1 mean2 std : ndarray)
    (max_val1 max_val2 tradeoff1 tradeoff2 : R) :
  standard_normal ndtr norm_pdf ->
  wf mean1 -> wf mean2 -> wf std ->
  shape mean1 = shape std -> shape mean2 = shape std ->
  Forall (fun s => 0 < s) (data std) ->
  (forall i, (i < length (data std))%nat ->
     nth i (data mean1) 0 - max_val1 - tradeoff1
     <= nth i (data mean2) 0 - max_val2 - tradeoff2) ->
  exists p1 p2,
    PI ndtr mean1 std max_val1 tradeoff1 = Ok p1
    /\ PI ndtr mean2 std max_val2 tradeoff2 = Ok p2
    /\ forall i, (i < length (data std))%nat ->
         nth i (data p1) 0 <= nth i (data p2) 0.
Proof.
  intros N Hm1 Hm2 Hs Hsh1 Hsh2 Hpos Hle.
  pose proof (same_shape_length mean1 std Hm1 Hs Hsh1) as Hl1.
  pose proof (same_shape_length mean2 std Hm2 Hs Hsh2) as Hl2.
  do 2 eexists; split; [apply PI_same_shape; assumption |].
  split; [apply PI_same_shape; assumption |].
  cbn [data]; intros i Hi.
  rewrite !zip_with_nth by lia.
  apply (cdf_monotone ndtr norm_pdf _ _ N).
  pose proof (Forall_nth_pos _ i Hpos Hi) as Hs0.
  apply Rmult_le_compat_r; [left; apply Rinv_0_lt_compat, Hs0 | apply Hle, Hi].
Qed.

Lemma PI_monotone_witness :
  exists p1 p2,
    PI std_normal_cdf (vector [1; 2]) (vector [1; / 2]) (3 / 2) (/ 10) = Ok p1
    /\ PI std_normal_cdf (vector [1; 3]) (vector [1; / 2]) 1 0 = Ok p2
    /\ forall i, (i < 2)%nat -> nth i (data p1) 0 <= nth i (data p2) 0.
Proof.
  apply (PI_monotone_in_margin std_normal_cdf std_normal_pdf
           (vector [1; 2]) (vector [1; 3]) (vector [1; / 2]) (3 / 2) 1 (/ 10) 0).
  - exact std_normal_contract.
  - reflexivity.
  - reflexivity.
  - reflexivity.
  - reflexivity.
  - reflexivity.
  - repeat constructor; simpl; lra.
  - intros [| [| i]] Hi; simpl in *; try lra; lia.
Defined.

(** EI never decreases when the margin grows or when the uncertainty
    grows. *)
Theorem EI_monotone_in_margin_and_std
    (ndtr norm_pdf : R -> R) (mean1 mean2 std1 std2 : ndarray)
    (max_val1 max_val2 tradeoff1 tradeoff2 : R) :
  standard_normal ndtr norm_pdf ->
  wf mean1 -> wf mean2 -> wf std1 -> wf std2 ->
  shape mean1 = shape std1 -> shape mean2 = shape std1 ->
  shape std2 = shape std1 ->
  Forall (fun s => 0 < s) (data std1) ->
  (forall i, (i < length (data std1))%nat ->
     nth i (data mean1) 0 - max_val1 - tradeoff1
     <= nth i (data mean2) 0 - max_val2 - tradeoff2) ->
  (forall i, (i < length (data std1))%nat ->
     nth i (data std1) 0 <= nth i (data std2) 0) ->
  exists e1 e2,
    EI ndtr norm_pdf mean1 std1 max_val1 tradeoff1 = Ok e1
    /\ EI ndtr norm_pdf mean2 std2 max_val2 tradeoff2 = Ok e2
    /\ forall i, (i < length (data std1))%nat ->
         nth i (data e1) 0 <= nth i (data e2) 0.
Proof.
  intros N Hm1 Hm2 Hs1 Hs2 Hsh1 Hsh2 Hsh3 Hpos Hle Hsle.
  pose proof (same_shape_length mean1 std1 Hm1 Hs1 Hsh1) as Hl1.
  pose proof (same_shape_length mean2 std1 Hm2 Hs1 Hsh2) as Hl2.
  pose proof (same_shape_length std2 std1 Hs2 Hs1 Hsh3) as Hl3.
  do 2 eexists; split; [apply EI_same_shape; assumption |].
  split; [apply EI_same_shape; [assumption | assumption | congruence] |].
  cbn [data]; intros i Hi.
  rewrite !zip_with_nth by lia.
  pose proof (Forall_nth_pos _ i Hpos Hi) as Hs0.
  specialize (Hle i Hi); specialize (Hsle i Hi).
  set (m1 := nth i (data mean1) 0 - max_val1 - tradeoff1) in *.
  set (m2 := nth i (data mean2) 0 - max_val2 - tradeoff2) in *.
  set (s1 := nth i (data std1) 0) in *.
  set (s2 := nth i (data std2) 0) in *.
  rewrite !improvement_factor by lra.
  apply Rle_trans with (s1 * unit_improvement ndtr norm_pdf (m2 / s1)).
  - apply Rmult_le_compat_l; [lra |].
    apply (unit_improvement_incr ndtr norm_pdf N).
    apply Rmult_le_compat_r; [left; apply Rinv_0_lt_compat, Hs0 | exact Hle].
  - apply improvement_incr_in_std; assumption.
Qed.

Lemma EI_monotone_witness :
  exists e1 e2,
    EI std_normal_cdf std_normal_pdf (vector [1; 2]) (vector [1; / 2]) (3 / 2)
      (/ 10) = Ok e1
    /\ EI std_normal_cdf std_normal_pdf (vector [1; 3]) (vector [2; / 2]) 1 0
       = Ok e2
    /\ forall i, (i < 2)%nat -> nth i (data e1) 0 <= nth i (data e2) 0.
Proof.
  apply (EI_monotone_in_margin_and_std std_normal_cdf std_normal_pdf
           (vector [1; 2]) (vector [1; 3]) (vector [1; / 2]) (vector [2; / 2])
           (3 / 2) 1 (/ 10) 0).
  - exact std_normal_contract.
  - reflexivity.
  - reflexivity.
  - reflexivity.
  - reflexivity.
  - reflexivity.
  - reflexivity.
  - reflexivity.
  - repeat constructor; simpl; lra.
  - intros [| [| i]] Hi; simpl in *; try lra; lia.
  - intros [| [| i]] Hi; simpl in *; try lra; lia.
Defined.

Lemma nth_ext_R (l1 l2 : list R) :
  length l1 = length l2 ->
  (forall i, (i < length l1)%nat -> nth i l1 0 = nth i l2 0) -> l1 = l2.
Proof.
  intros Hlen H; apply (nth_ext l1 l2 0 0 Hlen H).
Qed.

Lemma nth_map_R (f : R -> R) (l : list R) (i : nat) :
  (i < length l)%nat -> nth i (map f l) 0 = f (nth i l 0).
Proof.
  intros Hi; rewrite (nth_indep _ 0 (f 0)) by (rewrite length_map; exact Hi).
  apply map_nth.
Qed.

Lemma margin_value (mean : ndarray) (max_val tradeoff : R) :
  wf mean ->
  exists a,
    np_sub mean (scalar max_val) = Ok a
    /\ np_sub a (scalar tradeoff)
       = Ok (mk_array (shape mean)
               (map (fun m => m - max_val - tradeoff) (data mean))).
Proof.
  intros Hwf; unfold np_sub.
  rewrite (broadcast2_scalar_r Rminus mean max_val Hwf).
  eexists; split; [reflexivity |].
  rewrite broadcast2_mk_scalar_r by (rewrite length_map; exact Hwf).
  rewrite map_map; reflexivity.
Qed.

(** PI and EI see mean, max_val and tradeoff only through the margin
    mean - max_val - tradeoff: two calls with equal margins return the same
    result, whatever the uncertainty array (a tradeoff is the same as a
    higher incumbent, and shifting mean and max_val together changes
    nothing). *)
Theorem scores_depend_on_the_margin_only
    (ndtr norm_pdf : R -> R) (mean1 mean2 std : ndarray)
    (max_val1 max_val2 tradeoff1 tradeoff2 : R) :
  wf mean1 -> wf mean2 -> shape mean1 = shape mean2 ->
  (forall i, (i < length (data mean1))%nat ->
     nth i (data mean1) 0 - max_val1 - tradeoff1
     = nth i (data mean2) 0 - max_val2 - tradeoff2) ->
  PI ndtr mean1 std max_val1 tradeoff1 = PI ndtr mean2 std max_val2 tradeoff2
  /\ EI ndtr norm_pdf mean1 std max_val1 tradeoff1
     = EI ndtr norm_pdf mean2 std max_val2 tradeoff2.
Proof.
  intros Hm1 Hm2 Hsh Heq.
  destruct (margin_value mean1 max_val1 tradeoff1 Hm1) as (a1 & Ha1 & Hb1).
  destruct (margin_value mean2 max_val2 tradeoff2 Hm2) as (a2 & Ha2 & Hb2).
  assert (Hlen : length (data mean1) = length (data mean2))
    by (unfold wf in Hm1, Hm2; rewrite Hm1, Hm2, Hsh; reflexivity).
  assert (HM : mk_array (shape mean1)
                 (map (fun m => m - max_val1 - tradeoff1) (data mean1))
               = mk_array (shape mean2)
                   (map (fun m => m - max_val2 - tradeoff2) (data mean2))).
  { rewrite Hsh; f_equal; apply nth_ext_R; [rewrite !length_map; exact Hlen |].
    intros i Hi; rewrite length_map in Hi.
    rewrite !nth_map_R by lia; apply Heq, Hi. }
  unfold PI, EI.
  rewrite Ha1, Ha2; cbn [bind]; rewrite Hb1, Hb2; cbn [bind]; rewrite HM.
  split; reflexivity.
Qed.

Lemma scores_margin_witness :
  PI std_normal_cdf (vector [1; 2]) (vector [1; / 2]) 1 (/ 2)
  = PI std_normal_cdf (vector [2; 3]) (vector [1; / 2]) (5 / 2) 0
  /\ EI std_normal_cdf std_normal_pdf (vector [1; 2]) (vector [1; / 2]) 1 (/ 2)
     = EI std_normal_cdf std_normal_pdf (vector [2; 3]) (vector [1; / 2])
         (5 / 2) 0.
Proof.
  apply (scores_depend_on_the_margin_only std_normal_cdf std_normal_pdf
           (vector [1; 2]) (vector [2; 3]) (vector [1; / 2]) 1 (5 / 2) (/ 2) 0).
  - reflexivity.
  - reflexivity.
  - reflexivity.
  - intros [| [| i]] Hi; simpl in *; try lra; lia.
Defined.

(** When a candidate's mean equals max_val + tradeoff (zero margin), its PI
    is exactly 1/2 and its EI is std * phi(0). *)
Theorem zero_margin_scores
    (ndtr norm_pdf : R -> R) (mean std : ndarray) (max_val tradeoff : R)
    (i : nat) :
  standard_normal ndtr norm_pdf ->
  wf mean -> wf std -> shape mean = shape std ->
  Forall (fun s => 0 < s) (data std) ->
  (i < length (data mean))%nat ->
  nth i (data mean) 0 = max_val + tradeoff ->
  exists pi ei,
    PI ndtr mean std max_val tradeoff = Ok pi
    /\ EI ndtr norm_pdf mean std max_val tradeoff = Ok ei
    /\ nth i (data pi) 0 = / 2
    /\ nth i (data ei) 0 = nth i (data std) 0 * norm_pdf 0.
Proof.
  intros N Hm Hs Hsh Hpos Hi Hz.
  pose proof (same_shape_length mean std Hm Hs Hsh) as Hlen.
  do 2 eexists; split; [apply PI_same_shape; assumption |].
  split; [apply EI_same_shape; assumption |].
  cbn [data]; rewrite !zip_with_nth by assumption.
  rewrite Hz.
  replace ((max_val + tradeoff - max_val - tradeoff) / nth i (data std) 0)
    with 0 by (unfold Rdiv; ring).
  rewrite (cdf_at_zero ndtr norm_pdf N); split; [reflexivity | ring].
Qed.

Lemma zero_margin_witness :
  exists pi ei,
    PI std_normal_cdf (vector [1; 2]) (vector [1; / 2]) (3 / 2) (/ 2) = Ok pi
    /\ EI std_normal_cdf std_normal_pdf (vector [1; 2]) (vector [1; / 2])
         (3 / 2) (/ 2) = Ok ei
    /\ nth 1 (data pi) 0 = / 2
    /\ nth 1 (data ei) 0 = nth 1 [1; / 2] 0 * std_normal_pdf 0.
Proof.
  apply (zero_margin_scores std_normal_cdf std_normal_pdf
           (vector [1; 2]) (vector [1; / 2]) (3 / 2) (/ 2) 1).
  - exact std_normal_contract.
  - reflexivity.
  - reflexivity.
  - reflexivity.
  - repeat constructor; simpl; lra.
  - simpl; lia.
  - simpl; lra.
Defined.

(** UCB returns mean + beta * std candidate by candidate, and for
    non-negative uncertainties it never decreases when beta grows. *)
Theorem UCB_values_and_monotone_in_beta
    (mean std : ndarray) (beta1 beta2 : R) :
  wf mean -> wf std -> shape mean = shape std ->
  Forall (fun s => 0 <= s) (data std) ->
  beta1 <= beta2 ->
  exists u1 u2,
    UCB mean std beta1 = Ok u1
    /\ UCB mean std beta2 = Ok u2
    /\ shape u1 = shape mean /\ shape u2 = shape mean
    /\ forall i, (i < length (data mean))%nat ->
         nth i (data u1) 0 = nth i (data mean) 0 + beta1 * nth i (data std) 0
         /\ nth i (data u2) 0 = nth i (data mean) 0 + beta2 * nth i (data std) 0
         /\ nth i (data u1) 0 <= nth i (data u2) 0.
Proof.
  intros Hm Hs Hsh Hpos Hb.
  pose proof (same_shape_length mean std Hm Hs Hsh) as Hlen.
  do 2 eexists; split; [apply UCB_same_shape; assumption |].
  split; [apply UCB_same_shape; assumption |].
  cbn [shape data]; split; [reflexivity | split; [reflexivity |]].
  intros i Hi; rewrite !zip_with_nth by assumption.
  split; [reflexivity | split; [reflexivity |]].
  assert (H0 : 0 <= nth i (data std) 0).
  { rewrite Forall_forall in Hpos; apply Hpos, nth_In; lia. }
  nra.
Qed.

Lemma UCB_monotone_witness :
  exists u1 u2,
    UCB (vector [1; 2]) (vector [0; 3]) 1 = Ok u1
    /\ UCB (vector [1; 2]) (vector [0; 3]) 2 = Ok u2
    /\ shape u1 = [2%nat] /\ shape u2 = [2%nat]
    /\ forall i, (i < 2)%nat ->
         nth i (data u1) 0 = nth i [1; 2] 0 + 1 * nth i [0; 3] 0
         /\ nth i (data u2) 0 = nth i [1; 2] 0 + 2 * nth i [0; 3] 0
         /\ nth i (data u1) 0 <= nth i (data u2) 0.
Proof.
  apply (UCB_values_and_monotone_in_beta (vector [1; 2]) (vector [0; 3]) 1 2).
  - reflexivity.
  - reflexivity.
  - reflexivity.
  - repeat constructor; simpl; lra.
  - lra.
Defined.

(** ** The adapters, candidate by candidate *)

Lemma reshape_col_sized (std : ndarray) (n : nat) :
  wf std -> size_of (shape std) = n ->
  reshape_col std = mk_array [n; 1%nat] (data std) /\ length (data std) = n.
Proof.
  unfold wf, reshape_col; intros Hwf Hn; rewrite Hn in *; split;
    [reflexivity | exact Hwf].
Qed.

Lemma column_length (mean : ndarray) (n : nat) :
  wf mean -> shape mean = [n; 1%nat] -> length (data mean) = n.
Proof.
  unfold wf; intros Hwf Hs; rewrite Hs in Hwf; simpl in Hwf; lia.
Qed.

(** When the surrogate answers its means as an (n,1) column and n
    uncertainties in an array of any shape (flat, column or row), each
    adapter returns an (n,1) column whose i-th score is the formula at the
    i-th mean, the i-th uncertainty and the surrogate's y_max. *)
Theorem adapters_score_each_candidate
    (ndtr norm_pdf : R -> R) (optimizer : BayesianEstimator)
    (X mean std : ndarray) (n : nat) (tradeoff beta : R) :
  predict optimizer X = Ok (mean, std) ->
  wf mean -> shape mean = [n; 1%nat] ->
  wf std -> size_of (shape std) = n ->
  exists pi ei ucb,
    optimizer_PI ndtr optimizer X tradeoff = Ok pi
    /\ optimizer_EI ndtr norm_pdf optimizer X tradeoff = Ok ei
    /\ optimizer_UCB optimizer X beta = Ok ucb
    /\ shape pi = [n; 1%nat] /\ shape ei = [n; 1%nat] /\ shape ucb = [n; 1%nat]
    /\ forall i, (i < n)%nat ->
         let m := nth i (data mean) 0 - y_max optimizer - tradeoff in
         let s := nth i (data std) 0 in
         nth i (data pi) 0 = ndtr (m / s)
         /\ nth i (data ei) 0 = m * ndtr (m / s) + s * norm_pdf (m / s)
         /\ nth i (data ucb) 0 = nth i (data mean) 0 + beta * s.
Proof.
  intros Hp Hm Hsm Hs Hn.
  destruct (reshape_col_sized std n Hs Hn) as (Hr & Hls).
  pose proof (column_length mean n Hm Hsm) as Hlm.
  assert (Hw : wf (mk_array [n; 1%nat] (data std)))
    by (unfold wf; simpl; lia).
  unfold optimizer_PI, optimizer_EI, optimizer_UCB.
  rewrite Hp; cbn [bind]; rewrite Hr.
  rewrite PI_same_shape, EI_same_shape, UCB_same_shape by assumption.
  do 3 eexists; repeat (split; [reflexivity |]).
  rewrite Hsm; cbn [shape data]; repeat (split; [reflexivity |]).
  intros i Hi; cbv zeta.
  rewrite !zip_with_nth by lia; repeat split; reflexivity.
Qed.

Lemma adapters_score_witness :
  exists pi ei ucb,
    optimizer_PI std_normal_cdf row_std_surrogate two_candidates (/ 2) = Ok pi
    /\ optimizer_EI std_normal_cdf std_normal_pdf row_std_surrogate
         two_candidates (/ 2) = Ok ei
    /\ optimizer_UCB row_std_surrogate two_candidates 2 = Ok ucb
    /\ shape pi = [2%nat; 1%nat] /\ shape ei = [2%nat; 1%nat]
    /\ shape ucb = [2%nat; 1%nat]
    /\ forall i, (i < 2)%nat ->
         let m := nth i [1; 2] 0 - 5 - / 2 in
         let s := nth i [3; 4] 0 in
         nth i (data pi) 0 = std_normal_cdf (m / s)
         /\ nth i (data ei) 0
            = m * std_normal_cdf (m / s) + s * std_normal_pdf (m / s)
         /\ nth i (data ucb) 0 = nth i [1; 2] 0 + 2 * s.
Proof.
  apply (adapters_score_each_candidate std_normal_cdf std_normal_pdf
           row_std_surrogate two_candidates (column [1; 2])
           (mk_array [1%nat; 2%nat] [3; 4]) 2 (/ 2) 2).
  - reflexivity.
  - reflexivity.
  - reflexivity.
  - reflexivity.
  - reflexivity.
Defined.

(** ** Rescaling the target *)

(** Multiplying mean, std, max_val and tradeoff by one factor a > 0 (a
    change of the target's unit) leaves PI unchanged and multiplies EI by
    a. *)
Theorem scores_under_rescaling
    (ndtr norm_pdf : R -> R) (mean std : ndarray) (max_val tradeoff a : R) :
  0 < a ->
  wf mean -> wf std -> shape mean = shape std ->
  Forall (fun s => 0 < s) (data std) ->
  exists mean' std' ei ei',
    np_mul (scalar a) mean = Ok mean'
    /\ np_mul (scalar a) std = Ok std'
    /\ PI ndtr mean' std' (a * max_val) (a * tradeoff)
       = PI ndtr mean std max_val tradeoff
    /\ EI ndtr norm_pdf mean std max_val tradeoff = Ok ei
    /\ EI ndtr norm_pdf mean' std' (a * max_val) (a * tradeoff) = Ok ei'
    /\ shape ei' = shape ei
    /\ data ei' = map (fun e => a * e) (data ei).
Proof.
  intros Ha Hm Hs Hsh Hpos.
  pose proof (same_shape_length mean std Hm Hs Hsh) as Hlen.
  unfold np_mul.
  rewrite (broadcast2_scalar_l Rmult mean a Hm).
  rewrite (broadcast2_scalar_l Rmult std a Hs).
  set (mean' := mk_array (shape mean) (map (fun x => a * x) (data mean))).
  set (std' := mk_array (shape std) (map (fun x => a * x) (data std))).
  assert (Hm' : wf mean') by (unfold wf, mean'; simpl; rewrite length_map; exact Hm).
  assert (Hs' : wf std') by (unfold wf, std'; simpl; rewrite length_map; exact Hs).
  assert (Hsh' : shape mean' = shape std') by exact Hsh.
  exists mean', std'; do 2 eexists.
  split; [reflexivity | split; [reflexivity |]].
  rewrite !PI_same_shape, !EI_same_shape by assumption.
  assert (Hquot : forall i, (i < length (data mean))%nat ->
            (a * nth i (data mean) 0 - a * max_val - a * tradeoff)
            / (a * nth i (data std) 0)
            = (nth i (data mean) 0 - max_val - tradeoff) / nth i (data std) 0).
  { intros i Hi.
    pose proof (Forall_nth_pos _ i Hpos ltac:(lia)).
    field; lra. }
  split; [| split; [reflexivity | split; [reflexivity | split; [reflexivity |]]]].
  - f_equal; f_equal; cbn [data mean' std' shape].
    apply nth_ext_R; [rewrite !zip_with_length; rewrite ?length_map; lia |].
    intros i Hi.
    rewrite zip_with_length in Hi by (rewrite !length_map; exact Hlen).
    rewrite length_map in Hi.
    rewrite !zip_with_nth by (rewrite ?length_map; lia).
    rewrite !nth_map_R by lia.
    rewrite Hquot by exact Hi; reflexivity.
  - cbn [data mean' std' shape].
    apply nth_ext_R;
      [rewrite length_map, !zip_with_length; rewrite ?length_map; lia |].
    intros i Hi.
    rewrite zip_with_length in Hi by (rewrite !length_map; exact Hlen).
    rewrite length_map in Hi.
    rewrite nth_map_R by (rewrite zip_with_length; lia).
    rewrite !zip_with_nth by (rewrite ?length_map; lia).
    rewrite !nth_map_R by lia.
    rewrite Hquot by exact Hi; ring.
Qed.

Lemma scores_under_rescaling_witness :
  exists mean' std' ei ei',
    np_mul (scalar 10) (vector [1; 2]) = Ok mean'
    /\ np_mul (scalar 10) (vector [1; / 2]) = Ok std'
    /\ PI std_normal_cdf mean' std' (10 * (3 / 2)) (10 * / 10)
       = PI std_normal_cdf (vector [1; 2]) (vector [1; / 2]) (3 / 2) (/ 10)
    /\ EI std_normal_cdf std_normal_pdf (vector [1; 2]) (vector [1; / 2])
         (3 / 2) (/ 10) = Ok ei
    /\ EI std_normal_cdf std_normal_pdf mean' std' (10 * (3 / 2)) (10 * / 10)
       = Ok ei'
    /\ shape ei' = shape ei
    /\ data ei' = map (fun e => 10 * e) (data ei).
Proof.
  apply (scores_under_rescaling std_normal_cdf std_normal_pdf
           (vector [1; 2]) (vector [1; / 2]) (3 / 2) (/ 10) 10).
  - lra.
  - reflexivity.
  - reflexivity.
  - reflexivity.
  - repeat constructor; simpl; lra.
Defined.

(** ** A flat mean against the column of uncertainties *)

Lemma indices_vector (n : nat) : indices [n] = map (fun j => [j]) (seq 0 n).
Proof.
  simpl; generalize 0%nat as start.
  induction n as [| n IH]; intros start; simpl; [reflexivity |].
  rewrite IH; reflexivity.
Qed.

Lemma flat_map_ext_in (A B : Type) (f g : A -> list B) (l : list A) :
  (forall x, In x l -> f x = g x) -> flat_map f l = flat_map g l.
Proof.
  induction l as [| x l IH]; simpl; intros H; [reflexivity |].
  rewrite (H x (or_introl eq_refl)), IH; [reflexivity |].
  intros y Hy; apply H; right; exact Hy.
Qed.

Lemma map_flat_map_rows (A : Type) (F : A -> R) (G : nat -> nat -> A)
    (cols rows : list nat) :
  map F (flat_map (fun i => map (G i) cols) rows)
  = flat_map (fun i => map (fun j => F (G i j)) cols) rows.
Proof.
  induction rows as [| i rows IH]; simpl; [reflexivity |].
  rewrite map_app, map_map, IH; reflexivity.
Qed.

(** An array built over the indices of the shape (n, n) is the matrix of
    its entries. *)
Lemma build_square (n : nat) (F : list nat -> R) :
  mk_array [n; n] (map F (indices [n; n])) = matrix_of n (fun i j => F [i; j]).
Proof.
  unfold matrix_of; f_equal.
  assert (E : indices [n; n]
              = flat_map (fun i => map (cons i) (indices [n])) (seq 0 n))
    by reflexivity.
  rewrite E, indices_vector.
  rewrite (flat_map_ext _ (fun i => map (fun j => [i; j]) (seq 0 n)))
    by (intros i; apply map_map).
  apply (map_flat_map_rows _ F (fun i j => [i; j])).
Qed.

Lemma matrix_of_nth (n : nat) (Z : nat -> nat -> R) (i j : nat) :
  (i < n)%nat -> (j < n)%nat ->
  nth (i * n + j) (data (matrix_of n Z)) 0 = Z i j.
Proof.
  intros Hi Hj; unfold matrix_of; cbn [data].
  rewrite <- nth_skipn.
  transitivity
    (nth j (firstn n (skipn (i * n)
              (flat_map (fun i => map (fun j => Z i j) (seq 0 n)) (seq 0 n)))) 0).
  - rewrite nth_firstn.
    destruct (Nat.ltb_spec j n); [reflexivity | lia].
  - rewrite (block_of_flat_map (fun i => map (fun j => Z i j) (seq 0 n)) n);
      [| apply Forall_forall; intros k _; rewrite length_map; apply length_seq
       | rewrite length_seq; exact Hi].
    rewrite seq_nth by exact Hi; simpl.
    rewrite (nth_indep _ 0 (Z i 0%nat))
      by (rewrite length_map, length_seq; exact Hj).
    rewrite (map_nth (fun j => Z i j)), seq_nth by exact Hj; reflexivity.
Qed.

Lemma ufunc_matrix (f : R -> R) (n : nat) (Z : nat -> nat -> R) :
  ufunc f (matrix_of n Z) = matrix_of n (fun i j => f (Z i j)).
Proof.
  unfold ufunc, matrix_of; cbn [shape data]; f_equal.
  apply (map_flat_map_rows _ f Z).
Qed.

Lemma bget_vector_2d (n : nat) (l : list R) (i j : nat) :
  (j < n)%nat -> bget (mk_array [n] l) [i; j] = nth j l 0.
Proof.
  intros Hj; unfold bget, lpad; cbn [shape data length Nat.sub repeat app ravel].
  unfold clip at 1; cbn [Nat.eqb]; rewrite (clip_lt n j Hj).
  f_equal; lia.
Qed.

Lemma bget_column_2d (n : nat) (l : list R) (i j : nat) :
  (i < n)%nat -> bget (mk_array [n; 1%nat] l) [i; j] = nth i l 0.
Proof.
  intros Hi; unfold bget, lpad; cbn [shape data length Nat.sub repeat app ravel].
  unfold clip at 2; cbn [Nat.eqb]; rewrite (clip_lt n i Hi).
  f_equal; lia.
Qed.

Lemma bget_matrix (n : nat) (Z : nat -> nat -> R) (i j : nat) :
  (i < n)%nat -> (j < n)%nat -> bget (matrix_of n Z) [i; j] = Z i j.
Proof.
  intros Hi Hj; unfold bget, lpad.
  cbn [matrix_of shape length Nat.sub repeat app ravel].
  rewrite (clip_lt n i Hi), (clip_lt n j Hj).
  replace (0 * n + i)%nat with i by lia.
  apply matrix_of_nth; assumption.
Qed.

(** An operator whose operands broadcast to (n, n) returns the matrix of
    the pairwise results. *)
Lemma broadcast2_square (f : R -> R -> R) (a b : ndarray) (n : nat) :
  broadcast_shapes (shape a) (shape b) = Some [n; n] ->
  broadcast2 f a b
  = Ok (matrix_of n (fun i j => f (bget a [i; j]) (bget b [i; j]))).
Proof.
  intros H; unfold broadcast2; rewrite H.
  rewrite (build_square n (fun idx => f (bget a idx) (bget b idx))); reflexivity.
Qed.

Lemma vector_length (mean : ndarray) (n : nat) :
  wf mean -> shape mean = [n] -> length (data mean) = n.
Proof.
  unfold wf; intros Hwf Hs; rewrite Hs in Hwf; simpl in Hwf; lia.
Qed.

(** When the surrogate answers its means as a flat sequence of length n
    (shape (n,)) and n uncertainties, each adapter returns an n-by-n matrix:
    the entry in row i and column j is the formula at the mean of candidate
    j and the uncertainty of candidate i. *)
Theorem flat_mean_adapters_pair_every_mean_with_every_std
    (ndtr norm_pdf : R -> R) (optimizer : BayesianEstimator)
    (X mean std : ndarray) (n : nat) (tradeoff beta : R) :
  predict optimizer X = Ok (mean, std) ->
  wf mean -> shape mean = [n] ->
  wf std -> size_of (shape std) = n ->
  exists pi ei ucb,
    optimizer_PI ndtr optimizer X tradeoff = Ok pi
    /\ optimizer_EI ndtr norm_pdf optimizer X tradeoff = Ok ei
    /\ optimizer_UCB optimizer X beta = Ok ucb
    /\ shape pi = [n; n] /\ shape ei = [n; n] /\ shape ucb = [n; n]
    /\ forall i j, (i < n)%nat -> (j < n)%nat ->
         let m := nth j (data mean) 0 - y_max optimizer - tradeoff in
         let s := nth i (data std) 0 in
         nth (i * n + j) (data pi) 0 = ndtr (m / s)
         /\ nth (i * n + j) (data ei) 0
            = m * ndtr (m / s) + s * norm_pdf (m / s)
         /\ nth (i * n + j) (data ucb) 0 = nth j (data mean) 0 + beta * s.
Proof.
  intros Hp Hm Hsm Hs Hn.
  destruct (reshape_col_sized std n Hs Hn) as (Hr & Hls).
  pose proof (vector_length mean n Hm Hsm) as Hlm.
  destruct (margin_value mean (y_max optimizer) tradeoff Hm) as (a & Ha & Hb).
  rewrite Hsm in Hb.
  set (g := fun m => m - y_max optimizer - tradeoff) in *.
  set (M := mk_array [n] (map g (data mean))) in *.
  set (S := mk_array [n; 1%nat] (data std)) in *.
  set (Zq := fun i j => bget M [i; j] / bget S [i; j]).
  assert (Hz : np_div M S = Ok (matrix_of n Zq))
    by (apply broadcast2_square, bc_flat_col).
  assert (Hl : np_mul M (ufunc ndtr (matrix_of n Zq))
               = Ok (matrix_of n (fun i j =>
                       bget M [i; j] * bget (matrix_of n (fun i j => ndtr (Zq i j))) [i; j]))).
  { rewrite ufunc_matrix; apply broadcast2_square, bc_flat_square. }
  assert (Hrr : np_mul S (ufunc norm_pdf (matrix_of n Zq))
               = Ok (matrix_of n (fun i j =>
                       bget S [i; j]
                       * bget (matrix_of n (fun i j => norm_pdf (Zq i j))) [i; j]))).
  { rewrite ufunc_matrix; apply broadcast2_square, bc_col_square. }
  assert (Hmul : np_mul (scalar beta) S
                 = Ok (mk_array [n; 1%nat] (map (fun x => beta * x) (data std)))).
  { apply broadcast2_mk_scalar_l; simpl; lia. }
  unfold optimizer_PI, optimizer_EI, optimizer_UCB.
  rewrite Hp; cbn [bind]; rewrite Hr; fold S.
  unfold PI, EI, UCB.
  rewrite Ha; cbn [bind]; rewrite Hb; cbn [bind].
  rewrite Hz; cbn [bind]; rewrite Hl; cbn [bind]; rewrite Hrr; cbn [bind].
  rewrite Hmul; cbn [bind].
  unfold np_add.
  rewrite (broadcast2_square Rplus _ _ n) by apply broadcast_shapes_same.
  rewrite (broadcast2_square Rplus mean _ n)
    by (rewrite Hsm; apply bc_flat_col).
  rewrite ufunc_matrix.
  do 3 eexists; repeat (split; [reflexivity |]).
  intros i j Hi Hj; cbv zeta.
  assert (HM : bget M [i; j] = g (nth j (data mean) 0)).
  { unfold M; rewrite bget_vector_2d by exact Hj.
    apply nth_map_R; lia. }
  assert (HS : bget S [i; j] = nth i (data std) 0)
    by (unfold S; apply bget_column_2d, Hi).
  rewrite !matrix_of_nth by assumption.
  rewrite !bget_matrix by assumption.
  unfold Zq; rewrite HM, HS.
  repeat split; try reflexivity.
  destruct mean as [sm lm]; cbn [shape data] in *; subst sm.
  rewrite bget_vector_2d by exact Hj.
  rewrite bget_column_2d by exact Hi.
  rewrite nth_map_R by lia; reflexivity.
Qed.

Lemma flat_mean_adapters_witness :
  exists pi ei ucb,
    optimizer_PI std_normal_cdf flat_ucb_surrogate two_candidates (/ 2) = Ok pi
    /\ optimizer_EI std_normal_cdf std_normal_pdf flat_ucb_surrogate
         two_candidates (/ 2) = Ok ei
    /\ optimizer_UCB flat_ucb_surrogate two_candidates 2 = Ok ucb
    /\ shape pi = [2%nat; 2%nat] /\ shape ei = [2%nat; 2%nat]
    /\ shape ucb = [2%nat; 2%nat]
    /\ forall i j, (i < 2)%nat -> (j < 2)%nat ->
         let m := nth j [0; 0] 0 - 0 - / 2 in
         let s := nth i [1; 5] 0 in
         nth (i * 2 + j) (data pi) 0 = std_normal_cdf (m / s)
         /\ nth (i * 2 + j) (data ei) 0
            = m * std_normal_cdf (m / s) + s * std_normal_pdf (m / s)
         /\ nth (i * 2 + j) (data ucb) 0 = nth j [0; 0] 0 + 2 * s.
Proof.
  apply (flat_mean_adapters_pair_every_mean_with_every_std
           std_normal_cdf std_normal_pdf flat_ucb_surrogate two_candidates
           (vector [0; 0]) (vector [1; 5]) 2 (/ 2) 2).
  - reflexivity.
  - reflexivity.
  - reflexivity.
  - reflexivity.
  - reflexivity.
Defined.

(** ** Where failures come from *)

Lemma broadcast2_raise_inv (f : R -> R -> R) (a b : ndarray) (e : exn) :
  broadcast2 f a b = Raise e -> e = ValueError.
Proof.
  unfold broadcast2; destruct (broadcast_shapes (shape a) (shape b));
    [discriminate | intros [= <-]; reflexivity].
Qed.

Ltac raise_cases :=
  repeat match goal with
  | |- bind (broadcast2 ?f ?a ?b) ?k = Raise ?e -> _ =>
      let E := fresh "E" in
      destruct (broadcast2 f a b) as [? | ?] eqn:E; cbn [bind];
      [ | intros [= <-]; apply broadcast2_raise_inv in E; exact E ]
  end;
  try discriminate;
  try (apply broadcast2_raise_inv).

Lemma PI_raises (ndtr : R -> R) mean std max_val tradeoff (e : exn) :
  PI ndtr mean std max_val tradeoff = Raise e -> e = ValueError.
Proof. unfold PI, np_sub, np_div; raise_cases. Qed.

Lemma EI_raises (ndtr norm_pdf : R -> R) mean std max_val tradeoff (e : exn) :
  EI ndtr norm_pdf mean std max_val tradeoff = Raise e -> e = ValueError.
Proof. unfold EI, np_sub, np_div, np_mul, np_add; raise_cases. Qed.

Lemma UCB_raises mean std beta (e : exn) :
  UCB mean std beta = Raise e -> e = ValueError.
Proof. unfold UCB, np_mul, np_add; raise_cases. Qed.

Lemma take_raise_inv (X : ndarray) (idx : list nat) (e : exn) :
  take X idx = Raise e -> e = IndexError.
Proof.
  unfold take; destruct (shape X) as [| n s']; [intros [= <-]; reflexivity |].
  destruct (forallb (fun i => (i <? n)%nat) idx);
    [discriminate | intros [= <-]; reflexivity].
Qed.

Lemma select_raises sel optimizer X n_instances scores (e : exn) :
  (scores = Raise e -> predict optimizer X = Raise e \/ e = ValueError) ->
  select sel X n_instances scores = Raise e ->
  failure_cause sel optimizer X n_instances scores e.
Proof.
  intros Hsc; unfold select, failure_cause.
  destruct scores as [s | e0]; cbn [bind].
  - destruct (sel s n_instances) as [idx | e1] eqn:Hsel; cbn [bind].
    + destruct (take X idx) as [rows | e2] eqn:Ht; cbn [bind]; [discriminate |].
      intros [= <-]; pose proof (take_raise_inv _ _ _ Ht) as ->.
      right; right; right; split; [reflexivity |].
      exists s, idx; repeat split; assumption.
    + intros [= <-]; right; right; left; exists s; split; [reflexivity | exact Hsel].
  - intros [= <-]; destruct (Hsc eq_refl) as [H | ->];
      [left; exact H | right; left; split; reflexivity].
Qed.

(** An adapter fails only with the surrogate's own error or with numpy's
    shape error; a strategy fails only for one of four causes: the
    surrogate's error, the shape error of its adapter, the Selector's error,
    or an index of the Selector outside the batch (IndexError). *)
Theorem failures_have_four_causes
    (ndtr norm_pdf : R -> R) (sel : ndarray -> nat -> result (list nat))
    (optimizer : BayesianEstimator) (X : ndarray) (tradeoff beta : R)
    (n_instances : nat) (e : exn) :
  ((optimizer_PI ndtr optimizer X tradeoff = Raise e
    \/ optimizer_EI ndtr norm_pdf optimizer X tradeoff = Raise e
    \/ optimizer_UCB optimizer X beta = Raise e) ->
   predict optimizer X = Raise e \/ e = ValueError)
  /\ (max_PI ndtr sel optimizer X tradeoff n_instances = Raise e ->
      failure_cause sel optimizer X n_instances
        (optimizer_PI ndtr optimizer X tradeoff) e)
  /\ (max_EI ndtr norm_pdf sel optimizer X tradeoff n_instances = Raise e ->
      failure_cause sel optimizer X n_instances
        (optimizer_EI ndtr norm_pdf optimizer X tradeoff) e)
  /\ (max_UCB sel optimizer X beta n_instances = Raise e ->
      failure_cause sel optimizer X n_instances
        (optimizer_UCB optimizer X beta) e).
Proof.
  assert (HPI : optimizer_PI ndtr optimizer X tradeoff = Raise e ->
                predict optimizer X = Raise e \/ e = ValueError).
  { unfold optimizer_PI; destruct (predict optimizer X) as [[mean std] | e0];
      cbn [bind]; [| intros [= <-]; left; reflexivity].
    intros H; right; apply (PI_raises _ _ _ _ _ _ H). }
  assert (HEI : optimizer_EI ndtr norm_pdf optimizer X tradeoff = Raise e ->
                predict optimizer X = Raise e \/ e = ValueError).
  { unfold optimizer_EI; destruct (predict optimizer X) as [[mean std] | e0];
      cbn [bind]; [| intros [= <-]; left; reflexivity].
    intros H; right; apply (EI_raises _ _ _ _ _ _ _ H). }
  assert (HUCB : optimizer_UCB optimizer X beta = Raise e ->
                 predict optimizer X = Raise e \/ e = ValueError).
  { unfold optimizer_UCB; destruct (predict optimizer X) as [[mean std] | e0];
      cbn [bind]; [| intros [= <-]; left; reflexivity].
    intros H; right; apply (UCB_raises _ _ _ _ H). }
  split; [intros [H | [H | H]]; auto |].
  rewrite max_PI_select, max_EI_select, max_UCB_select.
  split; [| split]; apply select_raises; assumption.
Qed.

(** ** The effect of the uncertainty on PI, and UCB's monotonicity *)

(** More uncertainty raises the PI of a candidate whose margin is negative
    and lowers the PI of a candidate whose margin is positive. *)
Theorem PI_uncertainty_effect
    (ndtr norm_pdf : R -> R) (mean std1 std2 : ndarray) (max_val tradeoff : R) :
  standard_normal ndtr norm_pdf ->
  wf mean -> wf std1 -> wf std2 ->
  shape mean = shape std1 -> shape mean = shape std2 ->
  Forall (fun s => 0 < s) (data std1) ->
  (forall i, (i < length (data mean))%nat ->
     nth i (data std1) 0 <= nth i (data std2) 0) ->
  exists p1 p2,
    PI ndtr mean std1 max_val tradeoff = Ok p1
    /\ PI ndtr mean std2 max_val tradeoff = Ok p2
    /\ forall i, (i < length (data mean))%nat ->
         (nth i (data mean) 0 - max_val - tradeoff <= 0 ->
          nth i (data p1) 0 <= nth i (data p2) 0)
         /\ (0 <= nth i (data mean) 0 - max_val - tradeoff ->
             nth i (data p2) 0 <= nth i (data p1) 0).
Proof.
  intros N Hm Hs1 Hs2 Hsh1 Hsh2 Hpos Hle.
  pose proof (same_shape_length mean std1 Hm Hs1 Hsh1) as Hl1.
  pose proof (same_shape_length mean std2 Hm Hs2 Hsh2) as Hl2.
  do 2 eexists; split; [apply PI_same_shape; assumption |].
  split; [apply PI_same_shape; assumption |].
  cbn [data]; intros i Hi.
  rewrite !zip_with_nth by assumption.
  pose proof (Forall_nth_pos _ i Hpos ltac:(lia)) as H1.
  specialize (Hle i Hi).
  set (m := nth i (data mean) 0 - max_val - tradeoff).
  set (s1 := nth i (data std1) 0) in *; set (s2 := nth i (data std2) 0) in *.
  assert (Hinv : / s2 <= / s1) by (apply Rinv_le_contravar; assumption).
  assert (H2 : 0 < / s2) by (apply Rinv_0_lt_compat; lra).
  split; intros Hsign; apply (cdf_monotone ndtr norm_pdf _ _ N);
    unfold Rdiv; nra.
Qed.

Lemma PI_uncertainty_witness :
  exists p1 p2,
    PI std_normal_cdf (vector [1; 2]) (vector [1; / 2]) (3 / 2) 0 = Ok p1
    /\ PI std_normal_cdf (vector [1; 2]) (vector [2; 1]) (3 / 2) 0 = Ok p2
    /\ forall i, (i < 2)%nat ->
         (nth i [1; 2] 0 - 3 / 2 - 0 <= 0 ->
          nth i (data p1) 0 <= nth i (data p2) 0)
         /\ (0 <= nth i [1; 2] 0 - 3 / 2 - 0 ->
             nth i (data p2) 0 <= nth i (data p1) 0).
Proof.
  apply (PI_uncertainty_effect std_normal_cdf std_normal_pdf
           (vector [1; 2]) (vector [1; / 2]) (vector [2; 1]) (3 / 2) 0).
  - exact std_normal_contract.
  - reflexivity.
  - reflexivity.
  - reflexivity.
  - reflexivity.
  - reflexivity.
  - repeat constructor; simpl; lra.
  - intros [| [| i]] Hi; simpl in *; try lra; lia.
Defined.

(** UCB never decreases when a mean grows, and for beta >= 0 never
    decreases when an uncertainty grows. *)
Theorem UCB_monotone_in_mean_and_std
    (mean1 mean2 std1 std2 : ndarray) (beta : R) :
  0 <= beta ->
  wf mean1 -> wf mean2 -> wf std1 -> wf std2 ->
  shape mean1 = shape std1 -> shape mean2 = shape std1 ->
  shape std2 = shape std1 ->
  (forall i, (i < length (data std1))%nat ->
     nth i (data mean1) 0 <= nth i (data mean2) 0
     /\ nth i (data std1) 0 <= nth i (data std2) 0) ->
  exists u1 u2,
    UCB mean1 std1 beta = Ok u1
    /\ UCB mean2 std2 beta = Ok u2
    /\ forall i, (i < length (data std1))%nat ->
         nth i (data u1) 0 <= nth i (data u2) 0.
Proof.
  intros Hb Hm1 Hm2 Hs1 Hs2 Hsh1 Hsh2 Hsh3 Hle.
  pose proof (same_shape_length mean1 std1 Hm1 Hs1 Hsh1) as Hl1.
  pose proof (same_shape_length mean2 std1 Hm2 Hs1 Hsh2) as Hl2.
  pose proof (same_shape_length std2 std1 Hs2 Hs1 Hsh3) as Hl3.
  do 2 eexists; split; [apply UCB_same_shape; assumption |].
  split; [apply UCB_same_shape; [assumption | assumption | congruence] |].
  cbn [data]; intros i Hi.
  rewrite !zip_with_nth by lia.
  destruct (Hle i Hi) as [H1 H2]; nra.
Qed.

Lemma UCB_monotone_in_mean_witness :
  exists u1 u2,
    UCB (vector [1; 2]) (vector [0; 3]) 2 = Ok u1
    /\ UCB (vector [1; 3]) (vector [1; 3]) 2 = Ok u2
    /\ forall i, (i < 2)%nat -> nth i (data u1) 0 <= nth i (data u2) 0.
Proof.
  apply (UCB_monotone_in_mean_and_std (vector [1; 2]) (vector [1; 3])
           (vector [0; 3]) (vector [1; 3]) 2).
  - lra.
  - reflexivity.
  - reflexivity.
  - reflexivity.
  - reflexivity.
  - reflexivity.
  - reflexivity.
  - reflexivity.
  - intros [| [| i]] Hi; simpl in *; try lia; split; lra.
Defined.

(** ** Shapes that broadcast *)

Lemma bc_dim_absorb (d1 d2 d : nat) :
  bc_dim d1 d2 = Some d -> bc_dim d1 d = Some d /\ bc_dim d2 d = Some d.
Proof.
  unfold bc_dim.
  destruct (Nat.eqb_spec d1 d2) as [-> | Hne].
  - intros [= ->]; rewrite Nat.eqb_refl; split; reflexivity.
  - destruct (Nat.eqb_spec d1 1) as [-> | H1].
    + intros [= ->]; rewrite Nat.eqb_refl.
      destruct (Nat.eqb_spec 1 d); split; congruence.
    + destruct (Nat.eqb_spec d2 1) as [-> | H2]; [| discriminate].
      intros [= <-]; rewrite Nat.eqb_refl.
      destruct (Nat.eqb_spec 1 d1); [lia |].
      split; reflexivity.
Qed.

Lemma bc_zip_absorb (s1 s2 s : list nat) :
  bc_zip s1 s2 = Some s ->
  bc_zip s1 s = Some s /\ bc_zip s2 s = Some s /\ length s = length s1.
Proof.
  revert s2 s; induction s1 as [| d1 s1 IH]; intros [| d2 s2] s; simpl;
    try discriminate.
  - intros [= <-]; repeat split; reflexivity.
  - destruct (bc_dim d1 d2) as [d |] eqn:Hd; [| discriminate].
    destruct (bc_zip s1 s2) as [t |] eqn:Ht; [| discriminate].
    intros [= <-].
    destruct (bc_dim_absorb _ _ _ Hd) as (Hd1 & Hd2).
    destruct (IH _ _ Ht) as (Ht1 & Ht2 & Hl).
    simpl; rewrite Hd1, Hd2, Ht1, Ht2, Hl; repeat split; reflexivity.
Qed.

Lemma lpad_length (n : nat) (s : list nat) :
  (length s <= n)%nat -> length (lpad n s) = n.
Proof.
  intros H; unfold lpad; rewrite length_app, repeat_length; lia.
Qed.

(** The broadcast of two shapes absorbs each of them. *)
Lemma broadcast_shapes_absorb (s1 s2 s : list nat) :
  broadcast_shapes s1 s2 = Some s ->
  broadcast_shapes s1 s = Some s /\ broadcast_shapes s2 s = Some s.
Proof.
  unfold broadcast_shapes; intros H.
  destruct (bc_zip_absorb _ _ _ H) as (H1 & H2 & Hl).
  rewrite lpad_length in Hl by lia.
  assert (E1 : Nat.max (length s1) (length s) = length s) by lia.
  assert (E2 : Nat.max (length s2) (length s) = length s) by lia.
  rewrite E1, E2, lpad_same.
  rewrite Hl; split; assumption.
Qed.

(** Whenever the shape of the predicted mean broadcasts against the (N,1)
    shape of the reshaped uncertainty, the three adapters raise nothing and
    return an array of the broadcast shape: together with the shape error of
    the other case, broadcasting is the only shape rule they apply. *)
Theorem adapters_return_on_broadcastable_shapes
    (ndtr norm_pdf : R -> R) (optimizer : BayesianEstimator)
    (X mean std : ndarray) (s : list nat) (tradeoff beta : R) :
  predict optimizer X = Ok (mean, std) ->
  broadcast_shapes (shape mean) (shape (reshape_col std)) = Some s ->
  exists pi ei ucb,
    optimizer_PI ndtr optimizer X tradeoff = Ok pi
    /\ optimizer_EI ndtr norm_pdf optimizer X tradeoff = Ok ei
    /\ optimizer_UCB optimizer X beta = Ok ucb
    /\ shape pi = s /\ shape ei = s /\ shape ucb = s
    /\ wf pi /\ wf ei /\ wf ucb.
Proof.
  intros Hp Hbc.
  destruct (broadcast_shapes_absorb _ _ _ Hbc) as (Hms & Hss).
  assert (HPI : exists pi, PI ndtr mean (reshape_col std) (y_max optimizer)
                             tradeoff = Ok pi /\ shape pi = s /\ wf pi).
  { unfold PI, np_sub, np_div.
    step_with (broadcast_shapes_scalar_r (shape mean)).
    assert (H1 : broadcast_shapes (shape r) (shape (scalar tradeoff))
                 = Some (shape mean))
      by (rewrite Hs; apply broadcast_shapes_scalar_r).
    step_with H1.
    assert (H2 : broadcast_shapes (shape r0) (shape (reshape_col std)) = Some s)
      by (rewrite Hs0; exact Hbc).
    step_with H2.
    eexists; split; [reflexivity |]; unfold ufunc, wf; cbn [shape data].
    split; [exact Hs1 |]; rewrite length_map; exact Hw1. }
  assert (HEI : exists ei, EI ndtr norm_pdf mean (reshape_col std)
                             (y_max optimizer) tradeoff = Ok ei
                           /\ shape ei = s /\ wf ei).
  { unfold EI, np_sub, np_div, np_mul, np_add.
    step_with (broadcast_shapes_scalar_r (shape mean)).
    assert (H1 : broadcast_shapes (shape r) (shape (scalar tradeoff))
                 = Some (shape mean))
      by (rewrite Hs; apply broadcast_shapes_scalar_r).
    step_with H1.
    assert (H2 : broadcast_shapes (shape r0) (shape (reshape_col std)) = Some s)
      by (rewrite Hs0; exact Hbc).
    step_with H2.
    step_with (broadcast_shapes_scalar_r (shape mean)).
    assert (H3 : broadcast_shapes (shape r2) (shape (scalar tradeoff))
                 = Some (shape mean))
      by (rewrite Hs2; apply broadcast_shapes_scalar_r).
    step_with H3.
    assert (H4 : broadcast_shapes (shape r3) (shape (ufunc ndtr r1)) = Some s)
      by (cbn [ufunc shape]; rewrite Hs3, Hs1; exact Hms).
    step_with H4.
    assert (H5 : broadcast_shapes (shape (reshape_col std))
                   (shape (ufunc norm_pdf r1)) = Some s)
      by (cbn [ufunc shape]; rewrite Hs1; exact Hss).
    step_with H5.
    assert (H6 : broadcast_shapes (shape r4) (shape r5) = Some s)
      by (rewrite Hs4, Hs5; apply broadcast_shapes_same).
    destruct (broadcast2_ok Rplus r4 r5 _ H6) as (ei & -> & Hse & Hwe).
    exists ei; repeat split; assumption. }
  assert (HUCB : exists ucb, UCB mean (reshape_col std) beta = Ok ucb
                             /\ shape ucb = s /\ wf ucb).
  { unfold UCB, np_mul, np_add.
    step_with (broadcast_shapes_scalar_l (shape (reshape_col std))).
    assert (H1 : broadcast_shapes (shape mean) (shape r) = Some s)
      by (rewrite Hs; exact Hbc).
    destruct (broadcast2_ok Rplus mean r _ H1) as (ucb & -> & Hsu & Hwu).
    exists ucb; repeat split; assumption. }
  destruct HPI as (pi & Hpi & Hspi & Hwpi).
  destruct HEI as (ei & Hei & Hsei & Hwei).
  destruct HUCB as (ucb & Hucb & Hsucb & Hwucb).
  exists pi, ei, ucb.
  unfold optimizer_PI, optimizer_EI, optimizer_UCB; rewrite Hp; cbn [bind].
  repeat split; assumption.
Qed.

Lemma adapters_return_witness :
  exists pi ei ucb,
    optimizer_PI std_normal_cdf single_std_surrogate three_candidates 0 = Ok pi
    /\ optimizer_EI std_normal_cdf std_normal_pdf single_std_surrogate
         three_candidates 0 = Ok ei
    /\ optimizer_UCB single_std_surrogate three_candidates 1 = Ok ucb
    /\ shape pi = [3%nat; 1%nat] /\ shape ei = [3%nat; 1%nat]
    /\ shape ucb = [3%nat; 1%nat]
    /\ wf pi /\ wf ei /\ wf ucb.
Proof.
  apply (adapters_return_on_broadcastable_shapes std_normal_cdf std_normal_pdf
           single_std_surrogate three_candidates
           (column [1; 2; / 2]) (vector [/ 10]) [3%nat; 1%nat] 0 1).
  - reflexivity.
  - reflexivity.
Defined.
